(** * VideoEventSequencer: a shallow embedding and its properties

    This development models
    [js/apl-html/src/components/video/VideoEventSequencer.ts]:
    the closure state of [createVideoEventSequencer] ([isProcessing],
    [eventsQueue], [currentAnimationFrame]), the host services it calls
    ([requestAnimationFrame], [cancelAnimationFrame], promises) and its
    three public methods.

    JavaScript code runs to completion between suspension points, so each
    function of the source is a computation in a state-and-exception monad
    [JS]; what happens between two runs (a frame fires, the handler's promise
    settles, a promise reaction or an [await] continuation is taken from the
    microtask queue, a producer calls a public method) is an [Action] of the
    transition function [step]. *)

From Stdlib Require Import String List Bool Arith PeanoNat Lia.
Import ListNotations.
Local Open Scope string_scope.
Local Open Scope list_scope.

(** ** Data *)

(** [enum VideoInterface]: the closed set of operation names. *)
Inductive VideoInterface : Type :=
| ON_EVENT | PLAY_MEDIA | CONTROL_MEDIA | PLAY | PAUSE | SEEK | REWIND
| PREVIOUS | NEXT | SET_TRACK | SET_TRACK_PAUSED | SET_AUDIO_TRACK
| SET_SOURCE | SET_TRACK_CURRENT_TIME | SET_TRACK_INDEX | SET_SCALE
| UPDATE_MEDIA_STATE | APPLY_CSS_SHADOW.

(** The string value of each enumerator, used for dispatch and logging. *)
Definition operationName (e : VideoInterface) : string :=
  match e with
  | ON_EVENT => "onEvent"
  | PLAY_MEDIA => "playMedia"
  | CONTROL_MEDIA => "controlMedia"
  | PLAY => "play"
  | PAUSE => "pause"
  | SEEK => "seek"
  | REWIND => "rewind"
  | PREVIOUS => "previous"
  | NEXT => "next"
  | SET_TRACK => "setTrack"
  | SET_TRACK_PAUSED => "setTrackPaused"
  | SET_AUDIO_TRACK => "setAudioTrack"
  | SET_SOURCE => "setSource"
  | SET_TRACK_CURRENT_TIME => "setTrackCurrentTime"
  | SET_TRACK_INDEX => "setTrackIndex"
  | SET_SCALE => "setScale"
  | UPDATE_MEDIA_STATE => "updateMediaState"
  | APPLY_CSS_SHADOW => "applyCssShadow"
  end.

(** [callArgs: any]: the payload is opaque to the sequencer. *)
Definition Any : Type := string.

(** A thrown value or rejection reason. *)
Definition Error : Type := string.

(** The object literal [{event, callArgs}] pushed on [eventsQueue]. *)
Record QueuedEvent : Type := mkQueued {
  event : VideoInterface;
  callArgs : Any
}.

(** How the promise returned by a handler operation settles. *)
Inductive Outcome : Type :=
| Success
| Failure (e : Error).

(** [callback?: PromiseCallback].  [processExclusively] passes the [resolve]
    function of the promise it returns ([ResolveOf]); [Raises] is a callback
    that throws when it is invoked. *)
Inductive PromiseCallback : Type :=
| ResolveOf (p : nat)
| Raises (e : Error).

(** What the collaborators (logger, handler, host, promise machinery) see. *)
Inductive Obs : Type :=
| LogInfo (ev : VideoInterface)
| LogWarn (ev : VideoInterface) (err : Error)
| HandlerCall (p : nat) (ev : VideoInterface) (args : Any)
| HandlerSettled (p : nat) (o : Outcome)
| CallbackInvoked (cb : PromiseCallback)
| ResolveCalled (p : nat)
| RequestFrame (h : nat)
| CancelFrame (h : option nat)
| UnhandledRejection (e : Error)
| Uncaught (e : Error).

(** The promise chain [processEvent(..).then(..).catch(..)] built by one call
    of [processNextEvent]; [c_promise] is the promise [processNextEvent]
    returns and also names the handler call. *)
Inductive ChainStatus : Type :=
| InFlight                      (* the handler's promise is pending *)
| Settled (o : Outcome)         (* processEvent's promise settled; reaction queued *)
| Caught (e : Error).           (* the [then] handler threw; [catch] reaction queued *)

Record Chain : Type := mkChain {
  c_promise : nat;
  c_event : VideoInterface;
  c_args : Any;
  c_callback : option PromiseCallback;
  c_status : ChainStatus
}.

(** The rest of an async function suspended at [await processNextEvent(..)]:
    the tail of [processLoop] (schedule the next frame) or the tail of the
    async executor in [processExclusively] (nothing). *)
Inductive Continuation : Type :=
| LoopTail
| GateTail.

(** The closure variables of one sequencer together with the part of the host
    it talks to. *)
Record State : Type := mkState {
  isProcessing : bool;
  eventsQueue : list QueuedEvent;
  currentAnimationFrame : option nat;     (* [undefined] until first assigned *)
  scheduledFrames : list nat;             (* frame callbacks the host still holds *)
  nextHandle : nat;
  nextPromise : nat;
  fulfilled : list nat;                   (* promises already resolved, oldest first *)
  chains : list Chain;
  awaits : list (nat * Continuation);
  trace : list Obs
}.

(** ** The state-and-exception monad *)

Inductive Completion (A : Type) : Type :=
| Normal (a : A)
| Throw (e : Error).
Arguments Normal {A} a.
Arguments Throw {A} e.

Definition JS (A : Type) : Type := State -> State * Completion A.

Definition ret {A} (a : A) : JS A := fun s => (s, Normal a).

Definition throw {A} (e : Error) : JS A := fun s => (s, Throw e).

Definition bind {A B} (m : JS A) (k : A -> JS B) : JS B :=
  fun s =>
    match m s with
    | (s', Normal a) => k a s'
    | (s', Throw e) => (s', Throw e)
    end.

(** [try { body } finally { fin }]: [fin] always runs; the completion of
    [body] is kept unless [fin] itself throws.  There is no [catch]. *)
Definition try_finally {A} (body : JS A) (fin : JS unit) : JS A :=
  fun s =>
    match body s with
    | (s', r) =>
        match fin s' with
        | (s'', Normal _) => (s'', r)
        | (s'', Throw e) => (s'', Throw e)
        end
    end.

Declare Scope js_scope.
Delimit Scope js_scope with js.
Notation "x <- m ;; k" := (bind m (fun x => k))
  (at level 61, m at next level, right associativity) : js_scope.
Notation "m ;;; k" := (bind m (fun _ => k))
  (at level 61, right associativity) : js_scope.
Local Open Scope js_scope.

(** ** Field updates, reads and observations *)

Definition set_isProcessing (b : bool) : JS unit := fun s =>
  (mkState b (eventsQueue s) (currentAnimationFrame s) (scheduledFrames s)
     (nextHandle s) (nextPromise s) (fulfilled s) (chains s) (awaits s) (trace s),
   Normal tt).

Definition set_eventsQueue (q : list QueuedEvent) : JS unit := fun s =>
  (mkState (isProcessing s) q (currentAnimationFrame s) (scheduledFrames s)
     (nextHandle s) (nextPromise s) (fulfilled s) (chains s) (awaits s) (trace s),
   Normal tt).

Definition set_currentAnimationFrame (h : option nat) : JS unit := fun s =>
  (mkState (isProcessing s) (eventsQueue s) h (scheduledFrames s)
     (nextHandle s) (nextPromise s) (fulfilled s) (chains s) (awaits s) (trace s),
   Normal tt).

Definition set_chains (cs : list Chain) (s : State) : State :=
  mkState (isProcessing s) (eventsQueue s) (currentAnimationFrame s)
    (scheduledFrames s) (nextHandle s) (nextPromise s) (fulfilled s) cs
    (awaits s) (trace s).

Definition set_awaits (ws : list (nat * Continuation)) (s : State) : State :=
  mkState (isProcessing s) (eventsQueue s) (currentAnimationFrame s)
    (scheduledFrames s) (nextHandle s) (nextPromise s) (fulfilled s) (chains s)
    ws (trace s).

Definition record (o : Obs) (s : State) : State :=
  mkState (isProcessing s) (eventsQueue s) (currentAnimationFrame s)
    (scheduledFrames s) (nextHandle s) (nextPromise s) (fulfilled s) (chains s)
    (awaits s) (trace s ++ [o]).

Definition emit (o : Obs) : JS unit := fun s => (record o s, Normal tt).

Definition get_isProcessing : JS bool := fun s => (s, Normal (isProcessing s)).

Definition get_currentAnimationFrame : JS (option nat) :=
  fun s => (s, Normal (currentAnimationFrame s)).

(** ** Host services *)

(** [requestAnimationFrame(processLoop)]: the only callback ever registered is
    [processLoop], so a pending request is its handle. *)
Definition requestAnimationFrame : JS nat := fun s =>
  let h := nextHandle s in
  (mkState (isProcessing s) (eventsQueue s) (currentAnimationFrame s)
     (scheduledFrames s ++ [h]) (S h) (nextPromise s) (fulfilled s) (chains s)
     (awaits s) (trace s ++ [RequestFrame h]),
   Normal h).

(** [cancelAnimationFrame(handle)]: a handle that is [undefined], already
    fired or already cancelled is ignored. *)
Definition cancelAnimationFrame (handle : option nat) : JS unit := fun s =>
  (mkState (isProcessing s) (eventsQueue s) (currentAnimationFrame s)
     (match handle with
      | Some h => remove Nat.eq_dec h (scheduledFrames s)
      | None => scheduledFrames s
      end)
     (nextHandle s) (nextPromise s) (fulfilled s) (chains s) (awaits s)
     (trace s ++ [CancelFrame handle]),
   Normal tt).

(** [new Promise(..)]: a fresh pending promise. *)
Definition newPromise : JS nat := fun s =>
  (mkState (isProcessing s) (eventsQueue s) (currentAnimationFrame s)
     (scheduledFrames s) (nextHandle s) (S (nextPromise s)) (fulfilled s)
     (chains s) (awaits s) (trace s),
   Normal (nextPromise s)).

Definition isFulfilled (p : nat) (s : State) : bool :=
  existsb (Nat.eqb p) (fulfilled s).

(** Settling promise [p] when the promises in [done] are already settled. *)
Definition fulfil (p : nat) (done : list nat) : list nat :=
  if existsb (Nat.eqb p) done then done else done ++ [p].

(** The [resolve] function of promise [p]: the first call fulfils the promise,
    later calls are ignored; it never throws. *)
Definition resolvePromise (p : nat) : JS unit := fun s =>
  (mkState (isProcessing s) (eventsQueue s) (currentAnimationFrame s)
     (scheduledFrames s) (nextHandle s) (nextPromise s)
     (fulfil p (fulfilled s))
     (chains s) (awaits s) (trace s ++ [ResolveCalled p]),
   Normal tt).

(** Calling a completion callback. *)
Definition invoke (cb : PromiseCallback) : JS unit :=
  emit (CallbackInvoked cb) ;;;
  match cb with
  | ResolveOf p => resolvePromise p
  | Raises e => throw e
  end.

(** An async function called without [await] and without a rejection handler
    ([processLoop().then(undefined)], or [processLoop] called by the host as
    a frame callback): the call itself never throws; an exception inside
    becomes a rejection nobody handles. *)
Definition fireAndForget (m : JS unit) : JS unit := fun s =>
  match m s with
  | (s', Normal _) => (s', Normal tt)
  | (s', Throw e) => (record (UnhandledRejection e) s', Normal tt)
  end.

Definition logger_info (ev : VideoInterface) : JS unit := emit (LogInfo ev).

Definition logger_warn (ev : VideoInterface) (err : Error) : JS unit :=
  emit (LogWarn ev err).

Definition typeError : Error := "TypeError: videoEventProcessor[event] is not a function".

(** A handler with every operation, and one that lacks [seek]. *)
Definition fullHandler : string -> bool := fun _ => true.

Definition noSeekHandler : string -> bool :=
  fun name => negb (String.eqb name "seek").

(** ** The sequencer *)

Section Sequencer.

(** [videoEventProcessor: any]: the property names under which the handler
    object holds a function.  When and how a call settles is decided by the environment
    (action [Settle]). *)
Variable videoEventProcessor : string -> bool.

(** [videoEventProcessor[(event as string)]] is a function. *)
Definition responds (ev : VideoInterface) : bool :=
  videoEventProcessor (operationName ev).

(** [processEvent], up to its [await]: log, then call the handler.  The
    result is the state of the promise the async function returns: pending
    on the handler, or already rejected when the property is not a function. *)
Definition processEvent (p : nat) (ev : VideoInterface) (args : Any)
  : JS ChainStatus :=
  logger_info ev ;;;
  if responds ev
  then emit (HandlerCall p ev args) ;;; ret InFlight
  else ret (Settled (Failure typeError)).

Definition ensureResolve (resolve : JS unit) (callback : option PromiseCallback)
  : JS unit :=
  try_finally
    (match callback with
     | Some cb => invoke cb
     | None => ret tt
     end)
    resolve.

(** The two reactions registered by [processNextEvent]. *)
Definition onFulfilled (resolve : JS unit) (callback : option PromiseCallback)
  : JS unit :=
  ensureResolve resolve callback.

Definition onRejected (ev : VideoInterface) (resolve : JS unit)
  (callback : option PromiseCallback) (error : Error) : JS unit :=
  logger_warn ev error ;;;
  ensureResolve resolve callback.

Definition add_chain (c : Chain) : JS unit := fun s =>
  (set_chains (chains s ++ [c]) s, Normal tt).

(** [processNextEvent]: creates the returned promise, starts [processEvent]
    and registers the two reactions. *)
Definition processNextEvent (ev : VideoInterface) (args : Any)
  (callback : option PromiseCallback) : JS nat :=
  p <- newPromise ;;
  st <- processEvent p ev args ;;
  add_chain (mkChain p ev args callback st) ;;;
  ret p.

(** [await p] inside an async function: suspend with the rest of the body. *)
Definition await (p : nat) (k : Continuation) : JS unit := fun s =>
  (set_awaits (awaits s ++ [(p, k)]) s, Normal tt).

(** [eventsQueue.shift()]. *)
Definition shift : JS (option QueuedEvent) := fun s =>
  match eventsQueue s with
  | [] => (s, Normal None)
  | e :: q => (fst (set_eventsQueue q s), Normal (Some e))
  end.

(** [processLoop], up to its [await]. *)
Definition processLoop : JS unit :=
  nextEvent <- shift ;;
  match nextEvent with
  | None => set_isProcessing false
  | Some e =>
      p <- processNextEvent (event e) (callArgs e) None ;;
      await p LoopTail
  end.

(** What runs when a suspended async function is resumed. *)
Definition continue (k : Continuation) : JS unit :=
  match k with
  | LoopTail =>
      h <- requestAnimationFrame ;;
      set_currentAnimationFrame (Some h)
  | GateTail => ret tt
  end.

Definition ensureProcessing : JS unit :=
  b <- get_isProcessing ;;
  if negb b
  then set_isProcessing true ;;; fireAndForget processLoop
  else ret tt.

(** The part of [processExclusively] after the three resets: build the
    returned promise and run its async executor up to the [await]. *)
Definition processNow (ev : VideoInterface) (args : Any) : JS nat :=
  outer <- newPromise ;;
  fireAndForget
    (p <- processNextEvent ev args (Some (ResolveOf outer)) ;;
     await p GateTail) ;;;
  ret outer.

Definition processExclusively (ev : VideoInterface) (args : Any) : JS nat :=
  set_eventsQueue [] ;;;
  h <- get_currentAnimationFrame ;;
  cancelAnimationFrame h ;;;
  set_isProcessing false ;;;
  processNow ev args.

Definition enqueueForProcessing (ev : VideoInterface) (args : Any) : JS unit :=
  (fun s => set_eventsQueue (eventsQueue s ++ [mkQueued ev args]) s) ;;;
  ensureProcessing.

Definition destroy : JS unit :=
  set_eventsQueue [] ;;;
  h <- get_currentAnimationFrame ;;
  cancelAnimationFrame h ;;;
  set_isProcessing false.

(** [createVideoEventSequencer]: the initial closure. *)
Definition createVideoEventSequencer : State :=
  mkState false [] None [] 0 0 [] [] [] [].

(** ** The event loop *)

Inductive Action : Type :=
| Enqueue (ev : VideoInterface) (args : Any)
| Exclusively (ev : VideoInterface) (args : Any)
| Destroy
| Frame (h : nat)                 (* the host runs the frame callback [h] *)
| Settle (p : nat) (o : Outcome)  (* the handler call of chain [p] settles *)
| React (p : nat)                 (* microtask: a reaction of chain [p] runs *)
| Resume (p : nat).               (* microtask: the function awaiting [p] resumes *)

(** A call from outside: an exception would reach the caller. *)
Definition call {A} (m : JS A) (s : State) : State :=
  match m s with
  | (s', Normal _) => s'
  | (s', Throw e) => record (Uncaught e) s'
  end.

Definition find_chain (p : nat) (s : State) : option Chain :=
  find (fun c => Nat.eqb (c_promise c) p) (chains s).

Definition drop_chain (p : nat) (s : State) : State :=
  set_chains (filter (fun c => negb (Nat.eqb (c_promise c) p)) (chains s)) s.

Definition with_status (st : ChainStatus) (c : Chain) : Chain :=
  mkChain (c_promise c) (c_event c) (c_args c) (c_callback c) st.

Definition set_status (p : nat) (st : ChainStatus) (s : State) : State :=
  set_chains
    (map (fun c => if Nat.eqb (c_promise c) p then with_status st c else c)
       (chains s)) s.

Definition find_await (p : nat) (s : State) : option Continuation :=
  match find (fun w => Nat.eqb (fst w) p) (awaits s) with
  | Some w => Some (snd w)
  | None => None
  end.

Definition drop_await (p : nat) (s : State) : State :=
  set_awaits (filter (fun w => negb (Nat.eqb (fst w) p)) (awaits s)) s.

Definition frameScheduled (h : nat) (s : State) : bool :=
  existsb (Nat.eqb h) (scheduledFrames s).

(** The host takes callback [h] out of its table and runs it. *)
Definition fire (h : nat) (s : State) : State :=
  mkState (isProcessing s) (eventsQueue s) (currentAnimationFrame s)
    (remove Nat.eq_dec h (scheduledFrames s)) (nextHandle s) (nextPromise s)
    (fulfilled s) (chains s) (awaits s) (trace s).

(** The reaction of chain [c] that is due: [then]'s handler after a success,
    [catch]'s handler after a failure or after the [then] handler threw. *)
Definition react (c : Chain) (s : State) : option State :=
  let resolve := resolvePromise (c_promise c) in
  match c_status c with
  | InFlight => None
  | Settled Success =>
      match onFulfilled resolve (c_callback c) s with
      | (s', Normal _) => Some (drop_chain (c_promise c) s')
      | (s', Throw e) => Some (set_status (c_promise c) (Caught e) s')
      end
  | Settled (Failure e) | Caught e =>
      match onRejected (c_event c) resolve (c_callback c) e s with
      | (s', Normal _) => Some (drop_chain (c_promise c) s')
      | (s', Throw e') =>
          Some (record (UnhandledRejection e') (drop_chain (c_promise c) s'))
      end
  end.

Definition step (a : Action) (s : State) : option State :=
  match a with
  | Enqueue ev args => Some (call (enqueueForProcessing ev args) s)
  | Exclusively ev args => Some (call (processExclusively ev args) s)
  | Destroy => Some (call destroy s)
  | Frame h =>
      if frameScheduled h s
      then Some (call (fireAndForget processLoop) (fire h s))
      else None
  | Settle p o =>
      match find_chain p s with
      | Some c =>
          match c_status c with
          | InFlight => Some (record (HandlerSettled p o) (set_status p (Settled o) s))
          | _ => None
          end
      | None => None
      end
  | React p =>
      match find_chain p s with
      | Some c => react c s
      | None => None
      end
  | Resume p =>
      match find_await p s with
      | Some k =>
          if isFulfilled p s
          then Some (call (fireAndForget (continue k)) (drop_await p s))
          else None
      | None => None
      end
  end.

Fixpoint run (acts : list Action) (s : State) : option State :=
  match acts with
  | [] => Some s
  | a :: rest =>
      match step a s with
      | Some s' => run rest s'
      | None => None
      end
  end.

(** ** Reading a state or a trace *)

Definition inFlight (s : State) : list Chain :=
  filter (fun c => match c_status c with InFlight => true | _ => false end)
    (chains s).

Fixpoint handlerCalls (t : list Obs) : list QueuedEvent :=
  match t with
  | [] => []
  | HandlerCall _ ev args :: t' => mkQueued ev args :: handlerCalls t'
  | _ :: t' => handlerCalls t'
  end.

Fixpoint frameRequests (t : list Obs) : list nat :=
  match t with
  | [] => []
  | RequestFrame h :: t' => h :: frameRequests t'
  | _ :: t' => frameRequests t'
  end.

Definition isEscape (o : Obs) : bool :=
  match o with
  | UnhandledRejection _ | Uncaught _ => true
  | _ => false
  end.

(** What [processEvent] leaves behind for an operation name: the state of its
    promise and the observations it makes. *)
Definition started (ev : VideoInterface) : ChainStatus :=
  if responds ev then InFlight else Settled (Failure typeError).

Definition startObs (p : nat) (ev : VideoInterface) (args : Any) : list Obs :=
  LogInfo ev :: if responds ev then [HandlerCall p ev args] else [].

Definition respondsTo (e : QueuedEvent) : bool := responds (event e).

(** How [processEvent]'s promise settles when the handler's promise would
    settle as [o]: a name the handler does not answer to fails at once. *)
Definition outcomeOf (ev : VideoInterface) (o : Outcome) : Outcome :=
  if responds ev then o else Failure typeError.

Definition settleActions (ev : VideoInterface) (p : nat) (o : Outcome)
  : list Action :=
  if responds ev then [Settle p o] else [].

(** The actions of the normal path: neither [processExclusively] nor
    [destroy] is called. *)
Definition normalAction (a : Action) : bool :=
  match a with
  | Exclusively _ _ | Destroy => false
  | _ => true
  end.

(** The actions that are not calls of a public method. *)
Definition hostAction (a : Action) : bool :=
  match a with
  | Enqueue _ _ | Exclusively _ _ | Destroy => false
  | _ => true
  end.

(** The commands a list of actions submits through [enqueueForProcessing]. *)
Fixpoint enqueued (acts : list Action) : list QueuedEvent :=
  match acts with
  | [] => []
  | Enqueue ev args :: rest => mkQueued ev args :: enqueued rest
  | _ :: rest => enqueued rest
  end.

(** The commands a list of actions submits through either entry point. *)
Fixpoint submitted (acts : list Action) : list QueuedEvent :=
  match acts with
  | [] => []
  | Enqueue ev args :: rest => mkQueued ev args :: submitted rest
  | Exclusively ev args :: rest => mkQueued ev args :: submitted rest
  | _ :: rest => submitted rest
  end.

(** The four phases of a drain cycle on the normal path. *)
Inductive Cycle : State -> Prop :=
| CycleIdle cur nh np ful tr :
    Forall (fun x => x < np) ful ->
    Cycle (mkState false [] cur [] nh np ful [] [] tr)
| CycleExecuting q cur nh np ful tr p ev args st :
    Forall (fun x => x < np) ful ->
    p < np ->
    existsb (Nat.eqb p) ful = false ->
    Cycle (mkState true q cur [] nh np ful
             [mkChain p ev args None st] [(p, LoopTail)] tr)
| CycleResolved q cur nh np ful tr p :
    Forall (fun x => x < np) ful ->
    existsb (Nat.eqb p) ful = true ->
    Cycle (mkState true q cur [] nh np ful [] [(p, LoopTail)] tr)
| CycleScheduled q nh np ful tr h :
    Forall (fun x => x < np) ful ->
    Cycle (mkState true q (Some h) [h] nh np ful [] [] tr).

(** What the reactions of one chain do, as the source reads: the warning of
    the [catch] handler, the callback, the [resolve] of the [finally] clause,
    and the rejection that nobody handles when the callback throws. *)
Definition warnObs (ev : VideoInterface) (o : Outcome) : list Obs :=
  match o with
  | Success => []
  | Failure e => [LogWarn ev e]
  end.

Definition reactObs (ev : VideoInterface) (p : nat)
  (cb : option PromiseCallback) (o : Outcome) : list Obs :=
  match cb with
  | None => warnObs ev o ++ [ResolveCalled p]
  | Some (ResolveOf q) =>
      warnObs ev o ++ [CallbackInvoked (ResolveOf q); ResolveCalled q; ResolveCalled p]
  | Some (Raises e) =>
      match o with
      | Success =>
          [CallbackInvoked (Raises e); ResolveCalled p;
           LogWarn ev e; CallbackInvoked (Raises e); ResolveCalled p;
           UnhandledRejection e]
      | Failure x =>
          [LogWarn ev x; CallbackInvoked (Raises e); ResolveCalled p;
           UnhandledRejection e]
      end
  end.

(** The microtasks of one chain once [processEvent]'s promise has settled:
    one reaction, or two when the [then] handler throws. *)
Definition reactSchedule (p : nat) (cb : option PromiseCallback) (o : Outcome)
  : list Action :=
  React p ::
  match cb, o with
  | Some (Raises _), Success => [React p]
  | _, _ => []
  end.

Definition reactFulfils (p : nat) (cb : option PromiseCallback) (done : list nat)
  : list nat :=
  fulfil p (match cb with
            | Some (ResolveOf q) => fulfil q done
            | _ => done
            end).

(** The calls of callbacks and of [resolve] functions in a trace. *)
Definition resolutionObs (t : list Obs) : list Obs :=
  filter (fun o => match o with
                   | CallbackInvoked _ | ResolveCalled _ => true
                   | _ => false
                   end) t.

Definition escapes (t : list Obs) : list Obs := filter isEscape t.

(** Promise identifiers in use are below [nextPromise]. *)
Definition chainBelow (n : nat) (c : Chain) : Prop :=
  c_promise c < n /\
  match c_callback c with
  | Some (ResolveOf q) => q < n
  | _ => True
  end.

Definition freshFor (n : nat) (cs : list Chain) (done : list nat)
  (ws : list (nat * Continuation)) : Prop :=
  Forall (chainBelow n) cs /\
  Forall (fun p => p < n) done /\
  Forall (fun w => fst w < n) ws.

Definition fresh (s : State) : Prop :=
  freshFor (nextPromise s) (chains s) (fulfilled s) (awaits s).

(** What settles for an operation name the handler answers to. *)
Definition settledObs (ev : VideoInterface) (p : nat) (o : Outcome) : list Obs :=
  if responds ev then [HandlerSettled p o] else [].

(** The sequencer itself only ever passes [resolve] functions as callbacks. *)
Definition benign (c : Chain) : bool :=
  match c_callback c with
  | Some (Raises _) => false
  | _ => true
  end.

(** Nothing has escaped so far and no chain carries a throwing callback. *)
Definition quiet (s : State) : Prop :=
  escapes (trace s) = [] /\ forallb benign (chains s) = true.

(** An [await] that belongs to [processExclusively], not to a drain step. *)
Definition awaitsGate (w : nat * Continuation) : bool :=
  match snd w with
  | GateTail => true
  | LoopTail => false
  end.

(** The settlement of a handler call and the microtasks that follow it. *)
Definition settlementAction (a : Action) : bool :=
  match a with
  | Settle _ _ | React _ | Resume _ => true
  | _ => false
  end.

(** A state without its log of observations. *)
Definition untraced (s : State) : State :=
  mkState (isProcessing s) (eventsQueue s) (currentAnimationFrame s)
    (scheduledFrames s) (nextHandle s) (nextPromise s) (fulfilled s)
    (chains s) (awaits s) [].

(** The calls of the three public methods. *)
Definition publicAction (a : Action) : bool := negb (hostAction a).

(** The two calls that preempt: [processExclusively] and [destroy]. *)
Definition preempts (a : Action) : bool := negb (normalAction a).

(** [enqueueForProcessing] called once for each command, in order. *)
Definition enqueueAll (cs : list QueuedEvent) : list Action :=
  map (fun c => Enqueue (event c) (callArgs c)) cs.

(** The names passed to [logger.info], and the warnings. *)
Fixpoint infoLog (t : list Obs) : list VideoInterface :=
  match t with
  | [] => []
  | LogInfo ev :: t' => ev :: infoLog t'
  | _ :: t' => infoLog t'
  end.

Definition isWarning (o : Obs) : bool :=
  match o with
  | LogWarn _ _ => true
  | _ => false
  end.

Definition warnings (t : list Obs) : list Obs := filter isWarning t.

(** Every action but the failure of a handler call. *)
Definition succeeds (a : Action) : bool :=
  match a with
  | Settle _ (Failure _) => false
  | _ => true
  end.

(** A chain that can only end without a warning: the handler call is
    pending or has succeeded, and the callback does not throw. *)
Definition sound (c : Chain) : bool :=
  benign c &&
  match c_status c with
  | InFlight | Settled Success => true
  | _ => false
  end.


(** [Subseq l m]: [l] is [m] with some elements left out, the order kept. *)
Inductive Subseq {A : Type} : list A -> list A -> Prop :=
| Subseq_nil : Subseq [] []
| Subseq_skip x l m : Subseq l m -> Subseq l (x :: m)
| Subseq_keep x l m : Subseq l m -> Subseq (x :: l) (x :: m).


(** A drain step that can still be brought to its next tick: the function
    suspended on promise [p] is the rest of [processLoop], and [p] is
    fulfilled or its chain is pending with a callback that does not throw. *)
Definition drivable (s : State) (p : nat) : Prop :=
  find_await p s = Some LoopTail /\
  (isFulfilled p s = true \/
   exists c, find_chain p s = Some c /\ benign c = true /\
             forall e, c_status c <> Caught e).

(** The flag is false only over an empty queue, and while it is true a tick
    is scheduled or a drain step can be brought to one. *)
Definition Alive (s : State) : Prop :=
  (isProcessing s = false -> eventsQueue s = []) /\
  (isProcessing s = true ->
   (exists h, In h (scheduledFrames s)) \/ (exists p, drivable s p)).


(** ** Properties *)

Lemma existsb_eqb_fresh (n : nat) (l : list nat) :
  Forall (fun x => x < n) l -> existsb (Nat.eqb n) l = false.
Proof.
  induction 1 as [|x l Hx _ IH]; simpl; [reflexivity|].
  rewrite IH, orb_false_r. apply Nat.eqb_neq. lia.
Qed.

Lemma Forall_lt_S (n : nat) (l : list nat) :
  Forall (fun x => x < n) l -> Forall (fun x => x < S n) l.
Proof. intros H. eapply Forall_impl; [|exact H]. simpl. intros; lia. Qed.

Ltac js_unfold :=
  cbv [step call react enqueueForProcessing processExclusively processNow destroy
       ensureProcessing processLoop processNextEvent processEvent
       ensureResolve onFulfilled onRejected continue await shift add_chain
       fireAndForget invoke logger_info logger_warn
       requestAnimationFrame cancelAnimationFrame newPromise resolvePromise
       isFulfilled fulfil frameScheduled fire find_chain find_await drop_chain
       drop_await set_status with_status
       bind ret throw try_finally emit record
       set_isProcessing set_eventsQueue set_currentAnimationFrame set_chains
       set_awaits get_isProcessing get_currentAnimationFrame
       isProcessing eventsQueue currentAnimationFrame scheduledFrames
       nextHandle nextPromise fulfilled chains awaits trace
       c_promise c_event c_args c_callback c_status event callArgs fst snd] in *.

(** *** Each function as one state update *)

Lemma processNextEvent_eq ev args cb s :
  processNextEvent ev args cb s =
  (mkState (isProcessing s) (eventsQueue s) (currentAnimationFrame s)
     (scheduledFrames s) (nextHandle s) (S (nextPromise s)) (fulfilled s)
     (chains s ++ [mkChain (nextPromise s) ev args cb (started ev)])
     (awaits s) (trace s ++ startObs (nextPromise s) ev args),
   Normal (nextPromise s)).
Proof.
  destruct s. unfold started, startObs. js_unfold.
  destruct (responds ev); simpl; rewrite <- ?app_assoc; reflexivity.
Qed.

Lemma processLoop_eq s :
  processLoop s =
  match eventsQueue s with
  | [] =>
      (mkState false [] (currentAnimationFrame s) (scheduledFrames s)
         (nextHandle s) (nextPromise s) (fulfilled s) (chains s) (awaits s)
         (trace s), Normal tt)
  | e :: q =>
      (mkState (isProcessing s) q (currentAnimationFrame s)
         (scheduledFrames s) (nextHandle s) (S (nextPromise s)) (fulfilled s)
         (chains s ++
            [mkChain (nextPromise s) (event e) (callArgs e) None (started (event e))])
         (awaits s ++ [(nextPromise s, LoopTail)])
         (trace s ++ startObs (nextPromise s) (event e) (callArgs e)),
       Normal tt)
  end.
Proof.
  unfold processLoop, bind, shift.
  destruct s as [b q cur fr nh np ful ch aw tr]; destruct q as [|e q]; simpl.
  - reflexivity.
  - rewrite processNextEvent_eq. reflexivity.
Qed.

Lemma enqueueForProcessing_eq ev args s :
  enqueueForProcessing ev args s =
  if isProcessing s
  then (mkState true (eventsQueue s ++ [mkQueued ev args])
          (currentAnimationFrame s) (scheduledFrames s) (nextHandle s)
          (nextPromise s) (fulfilled s) (chains s) (awaits s) (trace s),
        Normal tt)
  else processLoop
         (mkState true (eventsQueue s ++ [mkQueued ev args])
            (currentAnimationFrame s) (scheduledFrames s) (nextHandle s)
            (nextPromise s) (fulfilled s) (chains s) (awaits s) (trace s)).
Proof.
  destruct s as [b q cur fr nh np ful ch aw tr]; destruct b.
  - reflexivity.
  - unfold enqueueForProcessing, ensureProcessing, bind, get_isProcessing,
      set_eventsQueue, set_isProcessing, fireAndForget; simpl.
    rewrite processLoop_eq; simpl. destruct (q ++ _); reflexivity.
Qed.

Lemma destroy_eq s :
  destroy s =
  (mkState false [] (currentAnimationFrame s)
     (match currentAnimationFrame s with
      | Some h => remove Nat.eq_dec h (scheduledFrames s)
      | None => scheduledFrames s
      end)
     (nextHandle s) (nextPromise s) (fulfilled s) (chains s) (awaits s)
     (trace s ++ [CancelFrame (currentAnimationFrame s)]),
   Normal tt).
Proof. destruct s; reflexivity. Qed.

Lemma processNow_eq ev args s :
  processNow ev args s =
  (mkState (isProcessing s) (eventsQueue s) (currentAnimationFrame s)
     (scheduledFrames s) (nextHandle s) (S (S (nextPromise s))) (fulfilled s)
     (chains s ++
        [mkChain (S (nextPromise s)) ev args
           (Some (ResolveOf (nextPromise s))) (started ev)])
     (awaits s ++ [(S (nextPromise s), GateTail)])
     (trace s ++ startObs (S (nextPromise s)) ev args),
   Normal (nextPromise s)).
Proof.
  unfold processNow, bind, newPromise, fireAndForget, await.
  rewrite processNextEvent_eq. destruct s; reflexivity.
Qed.

Lemma processExclusively_eq ev args s :
  processExclusively ev args s = processNow ev args (fst (destroy s)).
Proof. destruct s; reflexivity. Qed.

Lemma continue_LoopTail_eq s :
  continue LoopTail s =
  (mkState (isProcessing s) (eventsQueue s) (Some (nextHandle s))
     (scheduledFrames s ++ [nextHandle s]) (S (nextHandle s)) (nextPromise s)
     (fulfilled s) (chains s) (awaits s) (trace s ++ [RequestFrame (nextHandle s)]),
   Normal tt).
Proof. destruct s; reflexivity. Qed.

Lemma react_plain_eq c s :
  c_callback c = None ->
  c_status c <> InFlight ->
  react c s =
  Some (drop_chain (c_promise c)
          (mkState (isProcessing s) (eventsQueue s) (currentAnimationFrame s)
             (scheduledFrames s) (nextHandle s) (nextPromise s)
             (fulfil (c_promise c) (fulfilled s))
             (chains s) (awaits s)
             (trace s ++
                match c_status c with
                | Settled (Failure e) | Caught e => [LogWarn (c_event c) e]
                | _ => []
                end ++ [ResolveCalled (c_promise c)]))).
Proof.
  intros Hcb Hst. unfold react. rewrite Hcb.
  destruct s as [b q cur fr nh np ful ch aw tr].
  destruct (c_status c) as [|[|e]|e]; try congruence;
    js_unfold; simpl; rewrite <- ?app_assoc; reflexivity.
Qed.

(** *** The drain cycle on the normal path *)

Lemma Cycle_step (a : Action) (s s' : State) :
  normalAction a = true -> Cycle s -> step a s = Some s' -> Cycle s'.
Proof.
  intros Ha HC Hs.
  destruct HC; destruct a; try discriminate Ha; simpl in Hs;
    unfold call in Hs;
    rewrite ?enqueueForProcessing_eq in Hs; simpl in Hs;
    rewrite ?processLoop_eq in Hs; simpl in Hs;
    try discriminate Hs.
  - injection Hs as <-. constructor; auto using Forall_lt_S, existsb_eqb_fresh.
  - injection Hs as <-. constructor; auto.
  - unfold find_chain, set_status, set_chains, record in Hs; simpl in Hs.
    destruct (Nat.eqb p p0); simpl in Hs; [|discriminate].
    destruct st; try discriminate. injection Hs as <-. constructor; auto.
  - unfold find_chain in Hs; simpl in Hs.
    destruct (Nat.eqb_spec p p0) as [->|]; simpl in Hs; [|discriminate].
    unfold react, onFulfilled, onRejected, ensureResolve, try_finally, bind,
      logger_warn, emit, ret, resolvePromise, fulfil, isFulfilled, drop_chain,
      set_chains, record in Hs; simpl in Hs.
    rewrite H1, Nat.eqb_refl in Hs.
    assert (Hful : existsb (Nat.eqb p0) (ful ++ [p0]) = true).
    { rewrite existsb_app; simpl. rewrite Nat.eqb_refl. apply orb_true_r. }
    assert (Hlt : Forall (fun x => x < np) (ful ++ [p0])).
    { apply Forall_app; split; auto. }
    destruct st as [|[|e]|e]; try discriminate; injection Hs as <-;
      constructor; auto.
  - unfold find_await in Hs; simpl in Hs.
    destruct (Nat.eqb_spec p p0) as [->|]; simpl in Hs; [|discriminate].
    unfold isFulfilled in Hs; simpl in Hs. rewrite H1 in Hs. discriminate.
  - injection Hs as <-. constructor; auto.
  - unfold find_await in Hs; simpl in Hs.
    destruct (Nat.eqb_spec p p0) as [->|]; simpl in Hs; [|discriminate].
    unfold isFulfilled in Hs; simpl in Hs. rewrite H0 in Hs.
    unfold fireAndForget, continue, bind, requestAnimationFrame,
      set_currentAnimationFrame, drop_await, set_awaits in Hs; simpl in Hs.
    rewrite Nat.eqb_refl in Hs; simpl in Hs.
    injection Hs as <-. constructor; auto.
  - injection Hs as <-. constructor; auto.
  - unfold frameScheduled in Hs; simpl in Hs.
    destruct (Nat.eqb_spec h0 h) as [->|]; simpl in Hs; [|discriminate].
    unfold fireAndForget in Hs. rewrite processLoop_eq in Hs.
    unfold fire in Hs; simpl in Hs.
    destruct (Nat.eq_dec h h) as [_|]; [|congruence].
    destruct q as [|e q]; simpl in Hs; injection Hs as <-;
      constructor; auto using Forall_lt_S, existsb_eqb_fresh.
Qed.

Lemma Cycle_run (acts : list Action) (s s' : State) :
  forallb normalAction acts = true -> Cycle s -> run acts s = Some s' -> Cycle s'.
Proof.
  revert s. induction acts as [|a acts IH]; simpl; intros s Hn HC Hr.
  - injection Hr as <-. exact HC.
  - apply andb_prop in Hn as [Ha Hn].
    destruct (step a s) as [s1|] eqn:Hs; [|discriminate].
    apply (IH s1); auto. apply (Cycle_step a s); assumption.
Qed.

Lemma Cycle_create : Cycle createVideoEventSequencer.
Proof. constructor. constructor. Qed.


(** *** Traces *)

Lemma handlerCalls_app (t u : list Obs) :
  handlerCalls (t ++ u) = handlerCalls t ++ handlerCalls u.
Proof.
  induction t as [|o t IH]; simpl; [reflexivity|].
  destruct o; simpl; rewrite IH; reflexivity.
Qed.

Lemma frameRequests_app (t u : list Obs) :
  frameRequests (t ++ u) = frameRequests t ++ frameRequests u.
Proof.
  induction t as [|o t IH]; simpl; [reflexivity|].
  destruct o; simpl; rewrite IH; reflexivity.
Qed.

Lemma handlerCalls_startObs p e :
  handlerCalls (startObs p (event e) (callArgs e)) =
  filter respondsTo [e].
Proof.
  unfold startObs, respondsTo; simpl.
  destruct (responds (event e)); destruct e; reflexivity.
Qed.

Lemma frameRequests_startObs p ev args :
  frameRequests (startObs p ev args) = [].
Proof. unfold startObs; simpl. destruct (responds ev); reflexivity. Qed.

(** A reaction touches neither the queue, the cycle flag nor the host, and
    calls no handler operation. *)
Lemma react_frame (c : Chain) (s s' : State) :
  react c s = Some s' ->
  eventsQueue s' = eventsQueue s /\
  isProcessing s' = isProcessing s /\
  currentAnimationFrame s' = currentAnimationFrame s /\
  scheduledFrames s' = scheduledFrames s /\
  nextHandle s' = nextHandle s /\
  nextPromise s' = nextPromise s /\
  awaits s' = awaits s /\
  handlerCalls (trace s') = handlerCalls (trace s) /\
  frameRequests (trace s') = frameRequests (trace s).
Proof.
  destruct s as [b q cur fr nh np ful ch aw tr].
  destruct c as [p ev args [[r|x]|] [|[|e]|e]]; js_unfold; simpl;
    intros H; try discriminate H; injection H as <-; simpl;
    rewrite <- ?app_assoc, ?handlerCalls_app, ?frameRequests_app; simpl;
    rewrite ?app_nil_r; repeat split; reflexivity.
Qed.

(** What one action removes from the queue and hands to the handler. *)
Lemma step_dispatch (a : Action) (s s' : State) :
  step a s = Some s' ->
  exists done,
    handlerCalls (trace s') = handlerCalls (trace s) ++ filter respondsTo done /\
    match a with
    | Exclusively ev args => done = [mkQueued ev args] /\ eventsQueue s' = []
    | Destroy => done = [] /\ eventsQueue s' = []
    | _ => eventsQueue s ++ enqueued [a] = done ++ eventsQueue s'
    end.
Proof.
  destruct a as [ev args|ev args| |h|p o|p|p]; simpl; intros Hs.
  - injection Hs as <-. unfold call. rewrite enqueueForProcessing_eq.
    destruct (isProcessing s).
    + exists []. simpl. rewrite app_nil_r. split; reflexivity.
    + rewrite processLoop_eq; simpl.
      destruct (eventsQueue s ++ [mkQueued ev args]) as [|e q'] eqn:Hq.
      * destruct (eventsQueue s); discriminate Hq.
      * exists [e]. simpl. rewrite handlerCalls_app, handlerCalls_startObs.
        split; reflexivity.
  - injection Hs as <-. unfold call.
    rewrite processExclusively_eq, processNow_eq, destroy_eq; simpl.
    exists [mkQueued ev args].
    rewrite !handlerCalls_app.
    change ev with (event (mkQueued ev args)) at 1.
    change args with (callArgs (mkQueued ev args)) at 1.
    rewrite handlerCalls_startObs. simpl. rewrite app_nil_r.
    split; [reflexivity|split; reflexivity].
  - injection Hs as <-. unfold call. rewrite destroy_eq; simpl.
    exists []. rewrite handlerCalls_app; simpl. rewrite !app_nil_r.
    split; [reflexivity|split; reflexivity].
  - destruct (frameScheduled h s); [|discriminate]. injection Hs as <-.
    unfold call, fireAndForget. rewrite processLoop_eq. simpl.
    destruct (eventsQueue s) as [|e q'] eqn:Hq; simpl.
    + exists []. simpl. rewrite app_nil_r. split; reflexivity.
    + exists [e]. rewrite handlerCalls_app, handlerCalls_startObs, app_nil_r.
      split; reflexivity.
  - destruct (find_chain p s) as [c|]; [|discriminate].
    destruct (c_status c); try discriminate. injection Hs as <-.
    exists []. simpl. rewrite handlerCalls_app; simpl. rewrite !app_nil_r.
    split; reflexivity.
  - destruct (find_chain p s) as [c|]; [|discriminate].
    apply react_frame in Hs as (Hq & _ & _ & _ & _ & _ & _ & Hc & _).
    exists []. simpl. rewrite Hq, Hc, !app_nil_r. split; reflexivity.
  - destruct (find_await p s) as [k|]; [|discriminate].
    destruct (isFulfilled p s); [|discriminate]. injection Hs as <-.
    exists []. destruct k; unfold call, fireAndForget.
    + rewrite continue_LoopTail_eq. simpl.
      rewrite handlerCalls_app; simpl. rewrite !app_nil_r. split; reflexivity.
    + simpl. rewrite !app_nil_r. split; reflexivity.
Qed.

(** *** Runs *)

Lemma run_app (xs ys : list Action) (s : State) :
  run (xs ++ ys) s =
  match run xs s with
  | Some s1 => run ys s1
  | None => None
  end.
Proof.
  revert s. induction xs as [|a xs IH]; simpl; intros s; [reflexivity|].
  destruct (step a s); [apply IH|reflexivity].
Qed.

Lemma run_cons (a : Action) (acts : list Action) (s : State) :
  run (a :: acts) s =
  match step a s with
  | Some s1 => run acts s1
  | None => None
  end.
Proof. reflexivity. Qed.

Lemma enqueued_app (xs ys : list Action) :
  enqueued (xs ++ ys) = enqueued xs ++ enqueued ys.
Proof.
  induction xs as [|a xs IH]; simpl; [reflexivity|].
  destruct a; simpl; rewrite IH; reflexivity.
Qed.

Lemma hostAction_normal (a : Action) : hostAction a = true -> normalAction a = true.
Proof. destruct a; simpl; congruence. Qed.

Lemma hostActions_normal (acts : list Action) :
  forallb hostAction acts = true -> forallb normalAction acts = true.
Proof.
  rewrite !forallb_forall. auto using hostAction_normal.
Qed.

Lemma hostActions_enqueue_nothing (acts : list Action) :
  forallb hostAction acts = true -> enqueued acts = [].
Proof.
  induction acts as [|a acts IH]; simpl; [reflexivity|].
  intros H. apply andb_prop in H as [Ha H].
  destruct a; simpl in *; try discriminate; auto.
Qed.

(** On the normal path the commands handed to the handler, followed by the
    commands still queued, are the commands submitted, in their order. *)
Lemma run_fifo (acts : list Action) (s s' : State) :
  forallb normalAction acts = true ->
  run acts s = Some s' ->
  exists done,
    eventsQueue s ++ enqueued acts = done ++ eventsQueue s' /\
    handlerCalls (trace s') = handlerCalls (trace s) ++ filter respondsTo done.
Proof.
  revert s. induction acts as [|a acts IH]; intros s Hn Hr.
  - simpl in *. injection Hr as <-. exists []. simpl. rewrite !app_nil_r. auto.
  - simpl in Hn, Hr. apply andb_prop in Hn as [Ha Hn].
    destruct (step a s) as [s1|] eqn:Hs; [|discriminate].
    destruct (step_dispatch _ _ _ Hs) as (d1 & Hc1 & Hq1).
    destruct (IH _ Hn Hr) as (d2 & Hq2 & Hc2).
    exists (d1 ++ d2). split.
    + change (a :: acts) with ([a] ++ acts).
      rewrite enqueued_app, app_assoc.
      destruct a; try discriminate Ha; rewrite Hq1, <- !app_assoc, Hq2; reflexivity.
    + rewrite Hc2, Hc1, filter_app, app_assoc. reflexivity.
Qed.

(** *** Chains *)

Lemma find_chain_promise p s c : find_chain p s = Some c -> c_promise c = p.
Proof.
  unfold find_chain. intros H. apply find_some in H as [_ H].
  apply Nat.eqb_eq, H.
Qed.

Lemma find_chain_set_status p st s c :
  find_chain p s = Some c ->
  find_chain p (set_status p st s) = Some (with_status st c).
Proof.
  unfold find_chain, set_status, set_chains; simpl.
  induction (chains s) as [|x l IH]; simpl; [discriminate|].
  destruct (Nat.eqb (c_promise x) p) eqn:E; simpl.
  - rewrite E. intros [= ->]. reflexivity.
  - rewrite E. exact IH.
Qed.

Lemma find_chain_drop p s : find_chain p (drop_chain p s) = None.
Proof.
  unfold find_chain, drop_chain, set_chains; simpl.
  induction (chains s) as [|x l IH]; simpl; [reflexivity|].
  destruct (Nat.eqb (c_promise x) p) eqn:E; simpl; [exact IH|].
  rewrite E. exact IH.
Qed.

Lemma step_React p s c : find_chain p s = Some c -> step (React p) s = react c s.
Proof. unfold step. intros ->. reflexivity. Qed.

Lemma step_Settle p o s c :
  find_chain p s = Some c ->
  c_status c = InFlight ->
  step (Settle p o) s =
  Some (record (HandlerSettled p o) (set_status p (Settled o) s)).
Proof. unfold step. intros -> ->. reflexivity. Qed.

Lemma react_ResolveOf_eq c q s :
  c_callback c = Some (ResolveOf q) ->
  c_status c <> InFlight ->
  react c s =
  Some (drop_chain (c_promise c)
          (mkState (isProcessing s) (eventsQueue s) (currentAnimationFrame s)
             (scheduledFrames s) (nextHandle s) (nextPromise s)
             (fulfil (c_promise c) (fulfil q (fulfilled s)))
             (chains s) (awaits s)
             (trace s ++
                match c_status c with
                | Settled (Failure e) | Caught e => [LogWarn (c_event c) e]
                | _ => []
                end ++
                [CallbackInvoked (ResolveOf q); ResolveCalled q;
                 ResolveCalled (c_promise c)]))).
Proof.
  intros Hcb Hst. unfold react. rewrite Hcb.
  destruct s as [b qu cur fr nh np ful ch aw tr].
  destruct (c_status c) as [|[|e]|e]; try congruence;
    js_unfold; simpl; rewrite <- ?app_assoc; reflexivity.
Qed.

Lemma react_Raises_fulfilled_eq c e s :
  c_callback c = Some (Raises e) ->
  c_status c = Settled Success ->
  react c s =
  Some (set_status (c_promise c) (Caught e)
          (mkState (isProcessing s) (eventsQueue s) (currentAnimationFrame s)
             (scheduledFrames s) (nextHandle s) (nextPromise s)
             (fulfil (c_promise c) (fulfilled s))
             (chains s) (awaits s)
             (trace s ++
                [CallbackInvoked (Raises e); ResolveCalled (c_promise c)]))).
Proof.
  intros Hcb Hst. unfold react. rewrite Hcb, Hst.
  destruct s as [b qu cur fr nh np ful ch aw tr].
  js_unfold; simpl; rewrite <- ?app_assoc; reflexivity.
Qed.

Lemma react_Raises_rejected_eq c e x s :
  c_callback c = Some (Raises e) ->
  c_status c = Settled (Failure x) \/ c_status c = Caught x ->
  react c s =
  Some (record (UnhandledRejection e)
          (drop_chain (c_promise c)
             (mkState (isProcessing s) (eventsQueue s) (currentAnimationFrame s)
                (scheduledFrames s) (nextHandle s) (nextPromise s)
                (fulfil (c_promise c) (fulfilled s))
                (chains s) (awaits s)
                (trace s ++
                   [LogWarn (c_event c) x; CallbackInvoked (Raises e);
                    ResolveCalled (c_promise c)])))).
Proof.
  intros Hcb Hst. unfold react. rewrite Hcb.
  destruct s as [b qu cur fr nh np ful ch aw tr].
  destruct Hst as [-> | ->];
    js_unfold; simpl; rewrite <- ?app_assoc; reflexivity.
Qed.

Lemma fulfil_idem p l : fulfil p (fulfil p l) = fulfil p l.
Proof.
  unfold fulfil. destruct (existsb (Nat.eqb p) l) eqn:E; [rewrite E; reflexivity|].
  rewrite existsb_app. simpl. rewrite Nat.eqb_refl, orb_true_r. reflexivity.
Qed.

(** The reactions of a settled chain, run to the end. *)
Lemma reactions_run (s : State) (p : nat) (c : Chain) (o : Outcome) :
  find_chain p s = Some c ->
  c_status c = Settled o ->
  exists s2,
    run (reactSchedule p (c_callback c) o) s = Some s2 /\
    trace s2 = trace s ++ reactObs (c_event c) p (c_callback c) o /\
    fulfilled s2 = reactFulfils p (c_callback c) (fulfilled s) /\
    find_chain p s2 = None /\
    eventsQueue s2 = eventsQueue s /\
    isProcessing s2 = isProcessing s /\
    currentAnimationFrame s2 = currentAnimationFrame s /\
    scheduledFrames s2 = scheduledFrames s /\
    nextHandle s2 = nextHandle s /\
    awaits s2 = awaits s /\
    nextPromise s2 = nextPromise s.
Proof.
  intros Hf Hst. pose proof (find_chain_promise p s c Hf) as Hp.
  unfold reactSchedule, reactObs, reactFulfils.
  destruct (c_callback c) as [[q|e]|] eqn:Hcb.
  - rewrite run_cons, (step_React p s c Hf).
    rewrite (react_ResolveOf_eq c q s Hcb) by congruence.
    rewrite Hst, Hp.
    destruct o; (eexists; split; [reflexivity|]);
      rewrite find_chain_drop; simpl; repeat split; reflexivity.
  - destruct o as [|x].
    + rewrite run_cons, (step_React p s c Hf).
      rewrite (react_Raises_fulfilled_eq c e s Hcb Hst), Hp.
      match goal with
      | |- context [set_status p (Caught e) ?s1] =>
          assert (Hf1 : find_chain p (set_status p (Caught e) s1)
                        = Some (with_status (Caught e) c))
            by (apply find_chain_set_status; exact Hf)
      end.
      rewrite run_cons, (step_React p _ _ Hf1).
      rewrite (react_Raises_rejected_eq _ e e) by (simpl; auto).
      simpl c_promise. rewrite Hp. eexists. split; [reflexivity|].
      change (find_chain p (record ?o ?x)) with (find_chain p x).
      rewrite find_chain_drop. simpl. rewrite fulfil_idem, <- !app_assoc.
      simpl. repeat split; reflexivity.
    + rewrite run_cons, (step_React p s c Hf).
      rewrite (react_Raises_rejected_eq c e x s Hcb) by auto.
      rewrite Hp. eexists. split; [reflexivity|].
      change (find_chain p (record ?o ?x)) with (find_chain p x).
      rewrite find_chain_drop. simpl. rewrite <- !app_assoc.
      simpl. repeat split; reflexivity.
  - rewrite run_cons, (step_React p s c Hf).
    rewrite (react_plain_eq c s Hcb) by congruence.
    rewrite Hst, Hp.
    destruct o; (eexists; split; [reflexivity|]);
      rewrite find_chain_drop; simpl; repeat split; reflexivity.
Qed.

(** The same from the moment the handler call settles. *)
Lemma settlement_run (s : State) (p : nat) (c : Chain) (o : Outcome) :
  find_chain p s = Some c ->
  c_status c = InFlight ->
  exists s2,
    run (Settle p o :: reactSchedule p (c_callback c) o) s = Some s2 /\
    trace s2 =
      trace s ++ HandlerSettled p o :: reactObs (c_event c) p (c_callback c) o /\
    fulfilled s2 = reactFulfils p (c_callback c) (fulfilled s) /\
    find_chain p s2 = None /\
    eventsQueue s2 = eventsQueue s /\
    isProcessing s2 = isProcessing s /\
    currentAnimationFrame s2 = currentAnimationFrame s /\
    scheduledFrames s2 = scheduledFrames s /\
    nextHandle s2 = nextHandle s /\
    awaits s2 = awaits s /\
    nextPromise s2 = nextPromise s.
Proof.
  intros Hf Hst. rewrite run_cons, (step_Settle p o s c Hf Hst).
  set (s1 := record (HandlerSettled p o) (set_status p (Settled o) s)).
  assert (Hf1 : find_chain p s1 = Some (with_status (Settled o) c))
    by (apply (find_chain_set_status p (Settled o) s c Hf)).
  destruct (reactions_run s1 p _ o Hf1 eq_refl)
    as (s2 & Hr & Ht & Hfu & Hn & Hq & Hb & Hc & Hfr & Hh & Ha & Hnp).
  exists s2. cbn [with_status c_callback c_event] in Hr, Ht, Hfu.
  rewrite Hr, Ht, Hfu, Hn, Hq, Hb, Hc, Hfr, Hh, Ha, Hnp.
  subst s1; simpl. rewrite <- app_assoc. repeat split; reflexivity.
Qed.

(** *** Where dispatched commands come from *)

Lemma submitted_cons (a : Action) (acts : list Action) :
  submitted (a :: acts) = submitted [a] ++ submitted acts.
Proof. destruct a; reflexivity. Qed.



Lemma call_processExclusively ev args s :
  call (processExclusively ev args) s = fst (processNow ev args (fst (destroy s))).
Proof.
  unfold call. rewrite processExclusively_eq, processNow_eq. reflexivity.
Qed.

(** *** Fresh promise identifiers *)

Lemma chainBelow_mono n m c : n <= m -> chainBelow n c -> chainBelow m c.
Proof.
  unfold chainBelow. intros Hnm [H1 H2]. split; [lia|].
  destruct (c_callback c) as [[q|e]|]; try exact I. lia.
Qed.

Lemma freshFor_mono n m cs done ws :
  n <= m -> freshFor n cs done ws -> freshFor m cs done ws.
Proof.
  intros Hnm (H1 & H2 & H3). repeat split.
  - eapply Forall_impl; [|exact H1]. intros c. apply chainBelow_mono, Hnm.
  - eapply Forall_impl; [|exact H2]. simpl. intros; lia.
  - eapply Forall_impl; [|exact H3]. simpl. intros; lia.
Qed.

Lemma Forall_fulfil n p l :
  p < n -> Forall (fun x => x < n) l -> Forall (fun x => x < n) (fulfil p l).
Proof.
  intros Hp Hl. unfold fulfil. destruct (existsb (Nat.eqb p) l); [exact Hl|].
  apply Forall_app. split; [exact Hl|]. constructor; [exact Hp|constructor].
Qed.

Lemma Forall_filter {A} (P : A -> Prop) (f : A -> bool) (l : list A) :
  Forall P l -> Forall P (filter f l).
Proof.
  intros H. apply Forall_forall. intros x Hx. apply filter_In in Hx as [Hx _].
  revert x Hx. apply Forall_forall, H.
Qed.

Lemma Forall_set_status n p st l :
  Forall (chainBelow n) l ->
  Forall (chainBelow n)
    (map (fun c => if Nat.eqb (c_promise c) p then with_status st c else c) l).
Proof.
  intros H. apply Forall_map. eapply Forall_impl; [|exact H].
  intros c Hc. destruct (Nat.eqb (c_promise c) p); exact Hc.
Qed.

Lemma fresh_processLoop s : fresh s -> fresh (fst (processLoop s)).
Proof.
  unfold fresh. intros H. rewrite processLoop_eq.
  destruct (eventsQueue s) as [|e q]; simpl; [exact H|].
  apply (freshFor_mono _ (S (nextPromise s))) in H; [|lia].
  destruct H as (H1 & H2 & H3). repeat split; auto.
  - apply Forall_app. split; [exact H1|]. constructor; [|constructor].
    split; simpl; [lia|exact I].
  - apply Forall_app. split; [exact H3|]. constructor; [|constructor].
    simpl. lia.
Qed.

Lemma fresh_react c s s' :
  In c (chains s) -> fresh s -> react c s = Some s' -> fresh s'.
Proof.
  unfold fresh. intros Hin (H1 & H2 & H3) Hr.
  assert (Hc : chainBelow (nextPromise s) c)
    by (exact (proj1 (Forall_forall _ _) H1 c Hin)).
  destruct Hc as [Hp Hq].
  destruct (c_callback c) as [[q|e]|] eqn:Hcb.
  - destruct (c_status c) eqn:Hst; [unfold react in Hr; rewrite Hst in Hr; discriminate| |];
      rewrite (react_ResolveOf_eq c q s Hcb) in Hr by congruence;
      injection Hr as <-; simpl;
      (repeat split; [apply Forall_filter, H1| |exact H3]);
      apply Forall_fulfil; auto; apply Forall_fulfil; auto.
  - destruct (c_status c) as [|[|x]|x] eqn:Hst.
    + unfold react in Hr; rewrite Hst in Hr; discriminate.
    + rewrite (react_Raises_fulfilled_eq c e s Hcb Hst) in Hr.
      injection Hr as <-; simpl.
      repeat split; [apply Forall_set_status, H1| |exact H3].
      apply Forall_fulfil; auto.
    + rewrite (react_Raises_rejected_eq c e x s Hcb) in Hr by auto.
      injection Hr as <-; simpl.
      repeat split; [apply Forall_filter, H1| |exact H3].
      apply Forall_fulfil; auto.
    + rewrite (react_Raises_rejected_eq c e x s Hcb) in Hr by auto.
      injection Hr as <-; simpl.
      repeat split; [apply Forall_filter, H1| |exact H3].
      apply Forall_fulfil; auto.
  - destruct (c_status c) eqn:Hst; [unfold react in Hr; rewrite Hst in Hr; discriminate| |];
      rewrite (react_plain_eq c s Hcb) in Hr by congruence;
      injection Hr as <-; simpl;
      (repeat split; [apply Forall_filter, H1| |exact H3]);
      apply Forall_fulfil; auto.
Qed.

Lemma find_chain_In p s c : find_chain p s = Some c -> In c (chains s).
Proof. unfold find_chain. intros H. apply find_some in H as [H _]. exact H. Qed.

Lemma fresh_step (a : Action) (s s' : State) :
  fresh s -> step a s = Some s' -> fresh s'.
Proof.
  intros Hf Hs. destruct a as [ev args|ev args| |h|p o|p|p]; simpl in Hs.
  - injection Hs as <-. unfold call. rewrite enqueueForProcessing_eq.
    destruct (isProcessing s); [exact Hf|].
    match goal with
    | |- fresh (let (s', c) := processLoop ?x in _) =>
        pose proof (fresh_processLoop x Hf) as H;
        destruct (processLoop x) as [s1 [[]|e]] eqn:E; [exact H|]
    end.
    rewrite processLoop_eq in E. simpl in E.
    destruct (_ ++ _) in E; discriminate E.
  - injection Hs as <-. rewrite call_processExclusively, processNow_eq, destroy_eq.
    unfold fresh in *. simpl.
    apply (freshFor_mono _ (S (S (nextPromise s)))) in Hf; [|lia].
    destruct Hf as (H1 & H2 & H3). repeat split; auto.
    + apply Forall_app. split; [exact H1|]. constructor; [|constructor].
      split; simpl; lia.
    + apply Forall_app. split; [exact H3|]. constructor; [|constructor].
      simpl. lia.
  - injection Hs as <-. unfold call. rewrite destroy_eq. exact Hf.
  - destruct (frameScheduled h s); [|discriminate]. injection Hs as <-.
    unfold call, fireAndForget.
    pose proof (fresh_processLoop (fire h s) Hf) as H.
    destruct (processLoop (fire h s)) as [s1 [[]|e]] eqn:E; [exact H|].
    rewrite processLoop_eq in E. destruct (eventsQueue (fire h s)); discriminate E.
  - destruct (find_chain p s) as [c|]; [|discriminate].
    destruct (c_status c); try discriminate. injection Hs as <-.
    destruct Hf as (H1 & H2 & H3). unfold fresh. simpl.
    repeat split; auto. apply Forall_set_status, H1.
  - destruct (find_chain p s) as [c|] eqn:Hc; [|discriminate].
    apply (fresh_react c s s'); auto. apply (find_chain_In p), Hc.
  - destruct (find_await p s) as [k|]; [|discriminate].
    destruct (isFulfilled p s); [|discriminate]. injection Hs as <-.
    destruct Hf as (H1 & H2 & H3).
    destruct k; unfold call, fireAndForget;
      [rewrite continue_LoopTail_eq|]; unfold fresh; simpl;
      repeat split; auto; apply Forall_filter, H3.
Qed.

Lemma fresh_run (acts : list Action) (s s' : State) :
  fresh s -> run acts s = Some s' -> fresh s'.
Proof.
  revert s. induction acts as [|a acts IH]; intros s Hf Hr.
  - simpl in Hr. injection Hr as <-. exact Hf.
  - rewrite run_cons in Hr. destruct (step a s) as [s1|] eqn:Hs; [|discriminate].
    apply (IH s1); [apply (fresh_step a s)|]; assumption.
Qed.

Lemma fresh_create : fresh createVideoEventSequencer.
Proof. repeat split; constructor. Qed.

(** *** Nothing escapes *)

Lemma escapes_app (t u : list Obs) : escapes (t ++ u) = escapes t ++ escapes u.
Proof. apply filter_app. Qed.

Lemma escapes_startObs p ev args : escapes (startObs p ev args) = [].
Proof. unfold startObs. destruct (responds ev); reflexivity. Qed.

Lemma forallb_filter_keeps {A} (f g : A -> bool) (l : list A) :
  forallb f l = true -> forallb f (filter g l) = true.
Proof.
  rewrite !forallb_forall. intros H x Hx. apply filter_In in Hx as [Hx _]. auto.
Qed.

Lemma quiet_processLoop s : quiet s -> quiet (fst (processLoop s)).
Proof.
  unfold quiet. intros [Ht Hc]. rewrite processLoop_eq.
  destruct (eventsQueue s) as [|e q]; simpl; [auto|].
  rewrite escapes_app, escapes_startObs, Ht, forallb_app, Hc. auto.
Qed.

Lemma quiet_react c s s' :
  In c (chains s) -> quiet s -> react c s = Some s' -> quiet s'.
Proof.
  unfold quiet. intros Hin [Ht Hc] Hr.
  assert (Hb : benign c = true)
    by (exact (proj1 (forallb_forall _ _) Hc c Hin)).
  unfold benign in Hb.
  destruct (c_callback c) as [[q|e]|] eqn:Hcb; [|discriminate|];
    (destruct (c_status c) as [|[|x]|x] eqn:Hst;
     [unfold react in Hr; rewrite Hst in Hr; discriminate| | |]);
    first [rewrite (react_ResolveOf_eq c q s Hcb) in Hr by congruence
          |rewrite (react_plain_eq c s Hcb) in Hr by congruence];
    injection Hr as <-; simpl; rewrite Hst, escapes_app, Ht; simpl;
    (split; [reflexivity|apply forallb_filter_keeps, Hc]).
Qed.

Lemma quiet_step (a : Action) (s s' : State) :
  quiet s -> step a s = Some s' -> quiet s'.
Proof.
  intros Hq Hs. destruct a as [ev args|ev args| |h|p o|p|p]; simpl in Hs.
  - injection Hs as <-. unfold call. rewrite enqueueForProcessing_eq.
    destruct (isProcessing s); [exact Hq|].
    match goal with
    | |- quiet (let (s', c) := processLoop ?x in _) =>
        pose proof (quiet_processLoop x Hq) as H;
        destruct (processLoop x) as [s1 [[]|e]] eqn:E; [exact H|]
    end.
    rewrite processLoop_eq in E. simpl in E.
    destruct (_ ++ _) in E; discriminate E.
  - injection Hs as <-. rewrite call_processExclusively, processNow_eq, destroy_eq.
    destruct Hq as [Ht Hc]. unfold quiet. simpl.
    rewrite !escapes_app, escapes_startObs, Ht, forallb_app, Hc. auto.
  - injection Hs as <-. unfold call. rewrite destroy_eq.
    destruct Hq as [Ht Hc]. unfold quiet. simpl. rewrite escapes_app, Ht. auto.
  - destruct (frameScheduled h s); [|discriminate]. injection Hs as <-.
    unfold call, fireAndForget.
    pose proof (quiet_processLoop (fire h s) Hq) as H.
    destruct (processLoop (fire h s)) as [s1 [[]|e]] eqn:E; [exact H|].
    rewrite processLoop_eq in E. destruct (eventsQueue (fire h s)); discriminate E.
  - destruct (find_chain p s) as [c|]; [|discriminate].
    destruct (c_status c); try discriminate. injection Hs as <-.
    destruct Hq as [Ht Hc]. unfold quiet. simpl.
    rewrite escapes_app, Ht. split; [reflexivity|].
    rewrite forallb_forall in *. intros x Hx.
    apply in_map_iff in Hx as (y & <- & Hy). specialize (Hc y Hy).
    destruct (Nat.eqb (c_promise y) p); exact Hc.
  - destruct (find_chain p s) as [c|] eqn:Hc; [|discriminate].
    apply (quiet_react c s s'); auto. apply (find_chain_In p), Hc.
  - destruct (find_await p s) as [k|]; [|discriminate].
    destruct (isFulfilled p s); [|discriminate]. injection Hs as <-.
    destruct Hq as [Ht Hc].
    destruct k; unfold call, fireAndForget;
      [rewrite continue_LoopTail_eq|]; unfold quiet; simpl;
      rewrite ?escapes_app, Ht; auto.
Qed.

Lemma quiet_run (acts : list Action) (s s' : State) :
  quiet s -> run acts s = Some s' -> quiet s'.
Proof.
  revert s. induction acts as [|a acts IH]; intros s Hq Hr.
  - simpl in Hr. injection Hr as <-. exact Hq.
  - rewrite run_cons in Hr. destruct (step a s) as [s1|] eqn:Hs; [|discriminate].
    apply (IH s1); [apply (quiet_step a s)|]; assumption.
Qed.

Lemma quiet_create : quiet createVideoEventSequencer.
Proof. split; reflexivity. Qed.

(** *** Promises *)

Lemma count_occ_pending p l :
  existsb (Nat.eqb p) l = false -> count_occ Nat.eq_dec l p = 0.
Proof.
  induction l as [|x l IH]; simpl; [reflexivity|].
  intros H. apply orb_false_elim in H as [Hx Hl].
  apply Nat.eqb_neq in Hx. destruct (Nat.eq_dec x p); [congruence|auto].
Qed.

Lemma count_occ_fulfil_same p l :
  existsb (Nat.eqb p) l = false -> count_occ Nat.eq_dec (fulfil p l) p = 1.
Proof.
  intros H. unfold fulfil. rewrite H, count_occ_app, (count_occ_pending p l H).
  simpl. destruct (Nat.eq_dec p p); [reflexivity|congruence].
Qed.

Lemma count_occ_fulfil_other p q l :
  p <> q -> count_occ Nat.eq_dec (fulfil q l) p = count_occ Nat.eq_dec l p.
Proof.
  intros H. unfold fulfil. destruct (existsb (Nat.eqb q) l); [reflexivity|].
  rewrite count_occ_app. simpl. destruct (Nat.eq_dec q p); [congruence|lia].
Qed.

Lemma existsb_fulfil_other p q l :
  p <> q -> existsb (Nat.eqb p) (fulfil q l) = existsb (Nat.eqb p) l.
Proof.
  intros H. unfold fulfil. destruct (existsb (Nat.eqb q) l); [reflexivity|].
  rewrite existsb_app. simpl. apply Nat.eqb_neq in H. rewrite H.
  rewrite !orb_false_r. reflexivity.
Qed.

Lemma find_fresh_chain (n p : nat) (l : list Chain) (c : Chain) :
  Forall (fun x => c_promise x < n) l ->
  n <= p ->
  c_promise c = p ->
  find (fun x => Nat.eqb (c_promise x) p) (l ++ [c]) = Some c.
Proof.
  intros Hl Hn Hc. induction Hl as [|x l Hx _ IH]; simpl.
  - rewrite Hc, Nat.eqb_refl. reflexivity.
  - assert (E : Nat.eqb (c_promise x) p = false) by (apply Nat.eqb_neq; lia).
    rewrite E. exact IH.
Qed.

(** The state [processExclusively] leaves: the chain of the exclusive
    command, carrying the [resolve] of the returned promise as its callback;
    both promises are pending. *)
Lemma processExclusively_chain (s : State) (ev : VideoInterface) (args : Any) :
  fresh s ->
  let s1 := call (processExclusively ev args) s in
  let outer := nextPromise s in
  let p := S (nextPromise s) in
  find_chain p s1 = Some (mkChain p ev args (Some (ResolveOf outer)) (started ev)) /\
  isFulfilled outer s1 = false /\
  isFulfilled p s1 = false /\
  fulfilled s1 = fulfilled s /\
  trace s1 =
    trace s ++ CancelFrame (currentAnimationFrame s) :: startObs p ev args.
Proof.
  intros (Hch & Hfu & _). cbv zeta.
  rewrite call_processExclusively, processNow_eq, destroy_eq.
  unfold find_chain, isFulfilled.
  cbn [fst chains fulfilled trace nextPromise currentAnimationFrame].
  repeat split.
  - apply (find_fresh_chain (nextPromise s)); auto.
    eapply Forall_impl; [|exact Hch]. intros c [H _]. exact H.
  - apply existsb_eqb_fresh, Hfu.
  - apply existsb_eqb_fresh, Forall_lt_S, Hfu.
  - rewrite <- app_assoc. reflexivity.
Qed.

(** *** One drain step and its completion *)

Lemma find_fresh_await (n p : nat) (k : Continuation)
  (l : list (nat * Continuation)) :
  Forall (fun w => fst w < n) l ->
  n <= p ->
  find (fun w => Nat.eqb (fst w) p) (l ++ [(p, k)]) = Some (p, k).
Proof.
  intros Hl Hn. induction Hl as [|x l Hx _ IH]; simpl.
  - rewrite Nat.eqb_refl. reflexivity.
  - assert (E : Nat.eqb (fst x) p = false) by (apply Nat.eqb_neq; lia).
    rewrite E. exact IH.
Qed.

Lemma existsb_fulfil_same p l : existsb (Nat.eqb p) (fulfil p l) = true.
Proof.
  unfold fulfil. destruct (existsb (Nat.eqb p) l) eqn:E; [exact E|].
  rewrite existsb_app. simpl. rewrite Nat.eqb_refl. apply orb_true_r.
Qed.

Lemma step_Resume_LoopTail p s :
  find_await p s = Some LoopTail ->
  isFulfilled p s = true ->
  step (Resume p) s =
  Some (mkState (isProcessing s) (eventsQueue s) (Some (nextHandle s))
          (scheduledFrames s ++ [nextHandle s]) (S (nextHandle s))
          (nextPromise s) (fulfilled s) (chains s)
          (filter (fun w => negb (Nat.eqb (fst w) p)) (awaits s))
          (trace s ++ [RequestFrame (nextHandle s)])).
Proof.
  unfold step. intros -> ->. unfold call, fireAndForget.
  rewrite continue_LoopTail_eq. reflexivity.
Qed.

Lemma step_Frame h s :
  frameScheduled h s = true ->
  step (Frame h) s = Some (fst (processLoop (fire h s))).
Proof.
  unfold step. intros ->. unfold call, fireAndForget.
  rewrite processLoop_eq. destruct (eventsQueue (fire h s)); reflexivity.
Qed.

(** A drain step on a non-empty queue takes the head, starts its executor
    chain and, however the handler call settles, ends with the request of
    the next frame. *)
Lemma drain_step_completes (s : State) (cmd : QueuedEvent)
  (q : list QueuedEvent) (o : Outcome) :
  fresh s ->
  eventsQueue s = cmd :: q ->
  let p := nextPromise s in
  let h := nextHandle s in
  exists s3,
    run (settleActions (event cmd) p o ++ [React p; Resume p])
      (fst (processLoop s)) = Some s3 /\
    trace s3 =
      trace s ++ startObs p (event cmd) (callArgs cmd) ++
      settledObs (event cmd) p o ++
      warnObs (event cmd) (outcomeOf (event cmd) o) ++
      [ResolveCalled p; RequestFrame h] /\
    scheduledFrames s3 = scheduledFrames s ++ [h] /\
    currentAnimationFrame s3 = Some h /\
    eventsQueue s3 = q /\
    isProcessing s3 = isProcessing s /\
    nextPromise s3 = S p.
Proof.
  intros (H1 & H2 & H3) Hq p h.
  set (c := mkChain p (event cmd) (callArgs cmd) None (started (event cmd))).
  set (s1 := fst (processLoop s)).
  assert (E1 : s1 =
    mkState (isProcessing s) q (currentAnimationFrame s) (scheduledFrames s)
      (nextHandle s) (S p) (fulfilled s) (chains s ++ [c])
      (awaits s ++ [(p, LoopTail)])
      (trace s ++ startObs p (event cmd) (callArgs cmd))).
  { subst s1. rewrite processLoop_eq, Hq. reflexivity. }
  assert (Hf1 : find_chain p s1 = Some c).
  { rewrite E1. unfold find_chain. simpl chains.
    apply (find_fresh_chain p); auto.
    eapply Forall_impl; [|exact H1]. intros x [Hx _]. exact Hx. }
  assert (Hsettle : exists s2,
    run (settleActions (event cmd) p o ++ [React p]) s1 = Some s2 /\
    trace s2 = trace s1 ++ settledObs (event cmd) p o ++
               warnObs (event cmd) (outcomeOf (event cmd) o) ++ [ResolveCalled p] /\
    fulfilled s2 = fulfil p (fulfilled s1) /\
    eventsQueue s2 = eventsQueue s1 /\ isProcessing s2 = isProcessing s1 /\
    scheduledFrames s2 = scheduledFrames s1 /\ nextHandle s2 = nextHandle s1 /\
    awaits s2 = awaits s1 /\ nextPromise s2 = nextPromise s1).
  { unfold settleActions, settledObs, outcomeOf.
    destruct (responds (event cmd)) eqn:Hresp.
    - destruct (settlement_run s1 p c o Hf1) as (s2 & Hr & Ht & Hfu & _ & Hq2 & Hb2 & _ & Hfr2 & Hh2 & Ha2 & Hn2).
      { subst c. unfold started. simpl. rewrite Hresp. reflexivity. }
      exists s2. repeat split; auto.
    - destruct (reactions_run s1 p c (Failure typeError) Hf1) as (s2 & Hr & Ht & Hfu & _ & Hq2 & Hb2 & _ & Hfr2 & Hh2 & Ha2 & Hn2).
      { subst c. unfold started. simpl. rewrite Hresp. reflexivity. }
      exists s2. repeat split; auto. }
  destruct Hsettle as (s2 & Hr & Ht & Hfu & Hq2 & Hb2 & Hfr2 & Hh2 & Ha2 & Hn2).
  assert (Hw : find_await p s2 = Some LoopTail).
  { unfold find_await. rewrite Ha2, E1. simpl awaits.
    rewrite (find_fresh_await p); auto. }
  assert (Hdone : isFulfilled p s2 = true).
  { unfold isFulfilled. rewrite Hfu. apply existsb_fulfil_same. }
  eexists. split.
  - change (settleActions (event cmd) p o ++ [React p; Resume p])
      with (settleActions (event cmd) p o ++ [React p] ++ [Resume p]).
    rewrite app_assoc, run_app, Hr, run_cons.
    rewrite (step_Resume_LoopTail p s2 Hw Hdone). reflexivity.
  - simpl. rewrite Ht, Hq2, Hb2, Hfr2, Hh2, Hn2, E1. simpl.
    rewrite <- !app_assoc. repeat split; reflexivity.
Qed.

(** The tick requested at the end of a drain step runs the next one. *)
Lemma next_tick_drains (s : State) (h : nat) :
  In h (scheduledFrames s) ->
  step (Frame h) s = Some (fst (processLoop (fire h s))) /\
  eventsQueue (fire h s) = eventsQueue s /\
  trace (fire h s) = trace s /\
  nextPromise (fire h s) = nextPromise s.
Proof.
  intros Hin. split; [|repeat split].
  apply step_Frame. unfold frameScheduled. apply existsb_exists.
  exists h. split; [exact Hin|apply Nat.eqb_refl].
Qed.

(** *** After [destroy] *)

Lemma find_await_gate p s k :
  forallb awaitsGate (awaits s) = true ->
  find_await p s = Some k ->
  k = GateTail.
Proof.
  unfold find_await. intros Hall H.
  destruct (find _ (awaits s)) as [w|] eqn:E; [|discriminate].
  injection H as <-. apply find_some in E as [Hin _].
  rewrite forallb_forall in Hall. specialize (Hall w Hin).
  unfold awaitsGate in Hall. destruct (snd w); [discriminate|reflexivity].
Qed.

(** With an empty queue and no drain step suspended, nothing but
    [enqueueForProcessing] brings a tick back. *)
Lemma stopped_step (a : Action) (s s' : State) :
  enqueued [a] = [] ->
  eventsQueue s = [] ->
  forallb awaitsGate (awaits s) = true ->
  step a s = Some s' ->
  eventsQueue s' = [] /\
  forallb awaitsGate (awaits s') = true /\
  frameRequests (trace s') = frameRequests (trace s).
Proof.
  intros Ha Hq Hw Hs. destruct a as [ev args|ev args| |h|p o|p|p]; simpl in Hs.
  - discriminate Ha.
  - injection Hs as <-. rewrite call_processExclusively, processNow_eq, destroy_eq.
    simpl. rewrite forallb_app, Hw, !frameRequests_app, frameRequests_startObs.
    simpl. rewrite !app_nil_r. auto.
  - injection Hs as <-. unfold call. rewrite destroy_eq. simpl.
    rewrite frameRequests_app. simpl. rewrite app_nil_r. auto.
  - destruct (frameScheduled h s); [|discriminate]. injection Hs as <-.
    unfold call, fireAndForget. rewrite processLoop_eq. simpl. rewrite Hq.
    simpl. auto.
  - destruct (find_chain p s) as [c|]; [|discriminate].
    destruct (c_status c); try discriminate. injection Hs as <-. simpl.
    rewrite frameRequests_app. simpl. rewrite app_nil_r. auto.
  - destruct (find_chain p s) as [c|]; [|discriminate].
    apply react_frame in Hs as (Hq' & _ & _ & _ & _ & _ & Ha' & _ & Hf').
    rewrite Hq', Ha', Hf'. auto.
  - destruct (find_await p s) as [k|] eqn:Hk; [|discriminate].
    apply (find_await_gate p s k Hw) in Hk as ->.
    destruct (isFulfilled p s); [|discriminate]. injection Hs as <-. simpl.
    split; [exact Hq|]. split; [|reflexivity].
    apply forallb_filter_keeps, Hw.
Qed.

Lemma stopped_run (acts : list Action) (s s' : State) :
  enqueued acts = [] ->
  eventsQueue s = [] ->
  forallb awaitsGate (awaits s) = true ->
  run acts s = Some s' ->
  eventsQueue s' = [] /\
  frameRequests (trace s') = frameRequests (trace s).
Proof.
  revert s. induction acts as [|a acts IH]; intros s Ha Hq Hw Hr.
  - simpl in Hr. injection Hr as <-. auto.
  - rewrite run_cons in Hr. destruct (step a s) as [s1|] eqn:Hs; [|discriminate].
    change (a :: acts) with ([a] ++ acts) in Ha. rewrite enqueued_app in Ha.
    apply app_eq_nil in Ha as [Ha1 Ha2].
    destruct (stopped_step a s s1 Ha1 Hq Hw Hs) as (Hq1 & Hw1 & Hf1).
    destruct (IH s1 Ha2 Hq1 Hw1 Hr) as [Hq' Hf']. rewrite Hf', Hf1. auto.
Qed.

Lemma remove_twice (h : nat) (l : list nat) :
  remove Nat.eq_dec h (remove Nat.eq_dec h l) = remove Nat.eq_dec h l.
Proof. apply notin_remove, remove_In. Qed.

Lemma settlement_keeps_flag (a : Action) (s s' : State) :
  settlementAction a = true ->
  step a s = Some s' ->
  isProcessing s' = isProcessing s.
Proof.
  intros Ha Hs. destruct a as [ev args|ev args| |h|p o|p|p];
    try discriminate Ha; simpl in Hs.
  - destruct (find_chain p s) as [c|]; [|discriminate].
    destruct (c_status c); try discriminate. injection Hs as <-. reflexivity.
  - destruct (find_chain p s) as [c|]; [|discriminate].
    apply react_frame in Hs as (_ & Hb & _). exact Hb.
  - destruct (find_await p s) as [k|]; [|discriminate].
    destruct (isFulfilled p s); [|discriminate]. injection Hs as <-.
    destruct k; reflexivity.
Qed.

Lemma settlements_keep_flag (acts : list Action) (s s' : State) :
  forallb settlementAction acts = true ->
  run acts s = Some s' ->
  isProcessing s' = isProcessing s.
Proof.
  revert s. induction acts as [|a acts IH]; intros s Ha Hr.
  - simpl in Hr. injection Hr as <-. reflexivity.
  - simpl in Ha. apply andb_prop in Ha as [Ha Hrest].
    rewrite run_cons in Hr. destruct (step a s) as [s1|] eqn:Hs; [|discriminate].
    rewrite (IH s1 Hrest Hr). apply (settlement_keeps_flag a); assumption.
Qed.

Lemma destroy_again (x s : State) :
  untraced x = untraced (call destroy s) ->
  eventsQueue (call destroy x) = [] /\
  isProcessing (call destroy x) = false /\
  untraced (call destroy x) = untraced (call destroy s) /\
  trace (call destroy x) = trace x ++ [CancelFrame (currentAnimationFrame s)].
Proof.
  unfold call. rewrite !destroy_eq.
  destruct x as [b q cur fr nh np ful ch aw tr].
  destruct s as [b' q' cur' fr' nh' np' ful' ch' aw' tr'].
  unfold untraced. simpl. intros [= -> -> -> -> -> -> -> -> ->].
  repeat split. destruct cur'; [rewrite remove_twice|]; reflexivity.
Qed.

(** *** A drain cycle stays alive in every run *)

Lemma find_chain_set_status_other p p' st s :
  p' <> p -> find_chain p' (set_status p st s) = find_chain p' s.
Proof.
  intros Hne. unfold find_chain, set_status, set_chains; simpl.
  induction (chains s) as [|x l IH]; simpl; [reflexivity|].
  destruct (Nat.eqb_spec (c_promise x) p) as [E|E]; simpl.
  - assert (E' : Nat.eqb (c_promise x) p' = false)
      by (apply Nat.eqb_neq; congruence).
    rewrite E'. exact IH.
  - destruct (Nat.eqb (c_promise x) p'); [reflexivity|exact IH].
Qed.

Lemma find_chain_drop_other p p' s :
  p' <> p -> find_chain p' (drop_chain p s) = find_chain p' s.
Proof.
  intros Hne. unfold find_chain, drop_chain, set_chains; simpl.
  induction (chains s) as [|x l IH]; simpl; [reflexivity|].
  destruct (Nat.eqb_spec (c_promise x) p) as [E|E]; simpl.
  - assert (E' : Nat.eqb (c_promise x) p' = false)
      by (apply Nat.eqb_neq; congruence).
    rewrite E'. exact IH.
  - destruct (Nat.eqb (c_promise x) p'); [reflexivity|exact IH].
Qed.

Lemma find_await_drop_other p p' s :
  p' <> p -> find_await p' (drop_await p s) = find_await p' s.
Proof.
  intros Hne. unfold find_await, drop_await, set_awaits; simpl.
  induction (awaits s) as [|x l IH]; simpl; [reflexivity|].
  destruct (Nat.eqb_spec (fst x) p) as [E|E]; simpl.
  - assert (E' : Nat.eqb (fst x) p' = false)
      by (apply Nat.eqb_neq; congruence).
    rewrite E'. exact IH.
  - destruct (Nat.eqb (fst x) p'); [reflexivity|exact IH].
Qed.

Lemma existsb_fulfil_keeps p q l :
  existsb (Nat.eqb p) l = true -> existsb (Nat.eqb p) (fulfil q l) = true.
Proof.
  intros H. unfold fulfil. destruct (existsb (Nat.eqb q) l); [exact H|].
  rewrite existsb_app, H. reflexivity.
Qed.

(** What the reaction of a chain whose callback does not throw changes. *)
Lemma react_benign (c : Chain) (s s' : State) :
  benign c = true ->
  react c s = Some s' ->
  s' = drop_chain (c_promise c)
         (mkState (isProcessing s) (eventsQueue s) (currentAnimationFrame s)
            (scheduledFrames s) (nextHandle s) (nextPromise s) (fulfilled s')
            (chains s) (awaits s) (trace s')) /\
  isFulfilled (c_promise c) s' = true /\
  (forall p', isFulfilled p' s = true -> isFulfilled p' s' = true).
Proof.
  unfold benign. intros Hb Hr.
  destruct (c_callback c) as [[q|e]|] eqn:Hcb; [|discriminate|];
    (destruct (c_status c) as [|[|x]|x] eqn:Hst;
     [unfold react in Hr; rewrite Hst in Hr; discriminate| | |]);
    first [rewrite (react_ResolveOf_eq c q s Hcb) in Hr by congruence
          |rewrite (react_plain_eq c s Hcb) in Hr by congruence];
    injection Hr as <-; unfold isFulfilled; simpl;
    (split; [reflexivity|]); (split; [apply existsb_fulfil_same|]);
    intros p' H; repeat apply existsb_fulfil_keeps; exact H.
Qed.

Lemma Alive_processLoop (x : State) :
  fresh x ->
  (isProcessing x = false -> eventsQueue x = []) ->
  Alive (fst (processLoop x)).
Proof.
  intros (H1 & H2 & H3) Hidle. rewrite processLoop_eq.
  destruct (eventsQueue x) as [|e q] eqn:Hq; simpl.
  - split; simpl; [reflexivity|discriminate].
  - split; simpl.
    + intros Hb. discriminate (Hidle Hb).
    + intros _. right. exists (nextPromise x). split.
      * unfold find_await. simpl.
        rewrite (find_fresh_await (nextPromise x)); auto.
      * right. eexists. split.
        { unfold find_chain. simpl.
          apply (find_fresh_chain (nextPromise x)); auto.
          eapply Forall_impl; [|exact H1]. intros c [Hc _]. exact Hc. }
        split; [reflexivity|]. simpl. unfold started.
        destruct (responds (event e)); discriminate.
Qed.

Lemma call_processLoop (x : State) :
  call (fireAndForget processLoop) x = fst (processLoop x).
Proof.
  unfold call, fireAndForget. rewrite processLoop_eq.
  destruct (eventsQueue x); reflexivity.
Qed.

Lemma Alive_step (a : Action) (s s' : State) :
  fresh s ->
  forallb benign (chains s) = true ->
  Alive s ->
  step a s = Some s' ->
  Alive s'.
Proof.
  intros Hf Hben [Hidle Hdrv] Hs.
  destruct a as [ev args|ev args| |h|p o|p|p]; simpl in Hs.
  - injection Hs as <-. unfold call. rewrite enqueueForProcessing_eq.
    destruct (isProcessing s) eqn:Hb.
    + split; simpl; [discriminate|]. intros _. exact (Hdrv eq_refl).
    + match goal with
      | |- Alive (let (s', c) := processLoop ?x in _) =>
          pose proof (Alive_processLoop x Hf) as H;
          destruct (processLoop x) as [s1 [[]|e]] eqn:E;
            [apply H; simpl; discriminate|]
      end.
      rewrite processLoop_eq in E. simpl in E.
      destruct (_ ++ _) in E; discriminate E.
  - injection Hs as <-. rewrite call_processExclusively, processNow_eq, destroy_eq.
    split; simpl; [reflexivity|discriminate].
  - injection Hs as <-. unfold call. rewrite destroy_eq.
    split; simpl; [reflexivity|discriminate].
  - destruct (frameScheduled h s); [|discriminate]. injection Hs as <-.
    rewrite call_processLoop. apply Alive_processLoop; [exact Hf|exact Hidle].
  - destruct (find_chain p s) as [c|] eqn:Hc; [|discriminate].
    destruct (c_status c); try discriminate. injection Hs as <-.
    split; [exact Hidle|]. intros Hb.
    destruct (Hdrv Hb) as [Htick|(p' & Hw & Hp')]; [left; exact Htick|].
    right. exists p'. split; [exact Hw|].
    destruct Hp' as [Hdone|(c' & Hc' & Hb' & Hst')]; [left; exact Hdone|].
    right. change (find_chain p' (record ?o ?x)) with (find_chain p' x).
    destruct (Nat.eq_dec p' p) as [->|Hne].
    + exists (with_status (Settled o) c'). split.
      * apply find_chain_set_status. exact Hc'.
      * split; [exact Hb'|]. simpl. discriminate.
    + exists c'. rewrite find_chain_set_status_other by exact Hne. auto.
  - destruct (find_chain p s) as [c|] eqn:Hc; [|discriminate].
    assert (Hbc : benign c = true)
      by (exact (proj1 (forallb_forall _ _) Hben c (find_chain_In p s c Hc))).
    pose proof (find_chain_promise p s c Hc) as Hp.
    destruct (react_benign c s s' Hbc Hs) as (E & Hdone & Hmono).
    rewrite Hp in E, Hdone.
    assert (Hflag : isProcessing s' = isProcessing s) by (rewrite E; reflexivity).
    assert (Hqueue : eventsQueue s' = eventsQueue s) by (rewrite E; reflexivity).
    assert (Hfr : scheduledFrames s' = scheduledFrames s) by (rewrite E; reflexivity).
    assert (Haw : forall p', find_await p' s' = find_await p' s)
      by (intros p'; rewrite E; reflexivity).
    assert (Hch : forall p', p' <> p -> find_chain p' s' = find_chain p' s).
    { intros p' Hne. rewrite E. rewrite find_chain_drop_other by exact Hne.
      reflexivity. }
    split; [rewrite Hflag, Hqueue; exact Hidle|]. rewrite Hflag, Hfr.
    intros Hb. destruct (Hdrv Hb) as [Htick|(p' & Hw & Hp')]; [left; exact Htick|].
    right. exists p'. split; [rewrite Haw; exact Hw|].
    destruct Hp' as [Hd|(c' & Hc' & Hb' & Hst')]; [left; apply Hmono, Hd|].
    destruct (Nat.eq_dec p' p) as [->|Hne]; [left; exact Hdone|].
    right. exists c'. rewrite (Hch p' Hne). auto.
  - destruct (find_await p s) as [k|] eqn:Hk; [|discriminate].
    destruct (isFulfilled p s); [|discriminate]. injection Hs as <-.
    destruct k; unfold call, fireAndForget.
    + rewrite continue_LoopTail_eq. split; simpl; [exact Hidle|].
      intros _. left. exists (nextHandle s).
      apply in_or_app. right. left. reflexivity.
    + simpl. split; [exact Hidle|]. intros Hb.
      destruct (Hdrv Hb) as [Htick|(p' & Hw & Hp')]; [left; exact Htick|].
      right. exists p'.
      assert (Hne : p' <> p) by (intros ->; congruence).
      split; [rewrite find_await_drop_other by exact Hne; exact Hw|].
      exact Hp'.
Qed.

(** The three invariants of every run, together. *)
Lemma reachable_invariants (acts : list Action) (s s' : State) :
  fresh s -> quiet s -> Alive s ->
  run acts s = Some s' ->
  fresh s' /\ quiet s' /\ Alive s'.
Proof.
  revert s. induction acts as [|a acts IH]; intros s Hf Hq Ha Hr.
  - simpl in Hr. injection Hr as <-. auto.
  - rewrite run_cons in Hr. destruct (step a s) as [s1|] eqn:Hs; [|discriminate].
    apply (IH s1); auto.
    + apply (fresh_step a s); assumption.
    + apply (quiet_step a s); assumption.
    + apply (Alive_step a s); auto. exact (proj2 Hq).
Qed.

Lemma Alive_create : Alive createVideoEventSequencer.
Proof. split; simpl; [reflexivity|discriminate]. Qed.


Lemma Alive_to_tick (s : State) :
  Alive s ->
  isProcessing s = true ->
  exists acts s1 h,
    forallb hostAction acts = true /\
    run acts s = Some s1 /\
    In h (scheduledFrames s1) /\
    eventsQueue s1 = eventsQueue s.
Proof.
  intros [_ Hdrv] Hb.
  assert (Hresume : forall x p,
             find_await p x = Some LoopTail -> isFulfilled p x = true ->
             exists s1 h, run [Resume p] x = Some s1 /\
                          In h (scheduledFrames s1) /\
                          eventsQueue s1 = eventsQueue x).
  { intros x p Hw Hd. eexists. exists (nextHandle x).
    rewrite run_cons, (step_Resume_LoopTail p x Hw Hd). simpl.
    split; [reflexivity|]. split; [|reflexivity].
    apply in_or_app. right. left. reflexivity. }
  destruct (Hdrv Hb) as [[h Hh]|(p & Hw & [Hd|(c & Hc & Hbc & Hst)])].
  - exists [], s, h. simpl. auto.
  - destruct (Hresume s p Hw Hd) as (s1 & h & Hr & Hin & Hq).
    exists [Resume p], s1, h. auto.
  - assert (Hsched : forall o, reactSchedule p (c_callback c) o = [React p]).
    { intros o. unfold benign in Hbc. unfold reactSchedule.
      destruct (c_callback c) as [[q|e]|]; [reflexivity|discriminate|reflexivity]. }
    assert (Hfin : forall l, existsb (Nat.eqb p) (reactFulfils p (c_callback c) l) = true).
    { intros l. unfold reactFulfils. apply existsb_fulfil_same. }
    destruct (c_status c) as [|o|e] eqn:Hs; [| |destruct (Hst e eq_refl)].
    + destruct (settlement_run s p c Success Hc Hs)
        as (s2 & Hr & _ & Hfu & _ & Hq2 & _ & _ & _ & _ & Ha2 & _).
      rewrite Hsched in Hr.
      destruct (Hresume s2 p) as (s1 & h & Hr1 & Hin & Hq1).
      { unfold find_await. rewrite Ha2. exact Hw. }
      { unfold isFulfilled. rewrite Hfu. apply Hfin. }
      exists ([Settle p Success; React p] ++ [Resume p]), s1, h.
      rewrite run_app, Hr, Hr1, Hq1, Hq2. auto.
    + destruct (reactions_run s p c o Hc Hs)
        as (s2 & Hr & _ & Hfu & _ & Hq2 & _ & _ & _ & _ & Ha2 & _).
      rewrite Hsched in Hr.
      destruct (Hresume s2 p) as (s1 & h & Hr1 & Hin & Hq1).
      { unfold find_await. rewrite Ha2. exact Hw. }
      { unfold isFulfilled. rewrite Hfu. apply Hfin. }
      exists ([React p] ++ [Resume p]), s1, h.
      rewrite run_app, Hr, Hr1, Hq1, Hq2. auto.
Qed.

(** From every state a run can reach, the host alone can empty the queue:
    whatever preemptions came before, no queued command is stranded. *)
Lemma Alive_drain (n : nat) (s : State) :
  fresh s -> quiet s -> Alive s ->
  length (eventsQueue s) < n ->
  exists acts s',
    forallb hostAction acts = true /\
    run acts s = Some s' /\
    eventsQueue s' = [].
Proof.
  revert s. induction n as [|n IH]; intros s Hf Hq Ha Hlen; [lia|].
  destruct (eventsQueue s) as [|e q] eqn:Hqueue.
  { exists [], s. simpl. auto. }
  assert (Hb : isProcessing s = true).
  { destruct (isProcessing s) eqn:Hb; [reflexivity|].
    rewrite (proj1 Ha Hb) in Hqueue. discriminate. }
  destruct (Alive_to_tick s Ha Hb) as (a1 & s1 & h & Hh1 & Hr1 & Hin & Hq1).
  destruct (reachable_invariants a1 s s1 Hf Hq Ha Hr1) as (Hf1 & Hqu1 & Ha1).
  destruct (next_tick_drains s1 h Hin) as (Hs2 & _).
  set (s2 := fst (processLoop (fire h s1))) in *.
  assert (Hr2 : run [Frame h] s1 = Some s2) by (rewrite run_cons, Hs2; reflexivity).
  destruct (reachable_invariants [Frame h] s1 s2 Hf1 Hqu1 Ha1 Hr2)
    as (Hf2 & Hqu2 & Ha2).
  assert (Hq2 : eventsQueue s2 = q).
  { subst s2. rewrite processLoop_eq. simpl. rewrite Hq1, Hqueue. reflexivity. }
  destruct (IH s2 Hf2 Hqu2 Ha2) as (a3 & s3 & Hh3 & Hr3 & Hq3).
  { rewrite Hq2. simpl in Hlen. lia. }
  exists (a1 ++ [Frame h] ++ a3), s3.
  rewrite !forallb_app, Hh1, Hh3, run_app, Hr1, run_app, Hr2, Hr3. auto.
Qed.


(** ** The claims *)


(** C2.  From every state the sequencer can reach, whatever was called
    before, and for every sequence of actions without [processExclusively]
    and [destroy]: the commands handed to the handler since, followed by the
    commands still queued, are the commands that were queued at the start
    followed by the enqueued commands, in their order (the handler is called
    for those whose name it answers to); and the host can always finish the
    drain, after which the handler has received all of them in the order of
    submission. *)
Theorem enqueue_fifo_order (before acts : list Action) (s0 s : State) :
  run before createVideoEventSequencer = Some s0 ->
  forallb normalAction acts = true ->
  run acts s0 = Some s ->
  (exists done,
     eventsQueue s0 ++ enqueued acts = done ++ eventsQueue s /\
     handlerCalls (trace s) = handlerCalls (trace s0) ++ filter respondsTo done) /\
  (exists more s',
     forallb hostAction more = true /\
     run more s = Some s' /\
     eventsQueue s' = [] /\
     handlerCalls (trace s') =
       handlerCalls (trace s0) ++
       filter respondsTo (eventsQueue s0 ++ enqueued acts) /\
     ((forall ev, responds ev = true) ->
      handlerCalls (trace s') =
        handlerCalls (trace s0) ++ eventsQueue s0 ++ enqueued acts)).
Proof.
  intros Hb Hn Hr. split.
  - exact (run_fifo acts s0 s Hn Hr).
  - destruct (reachable_invariants before _ s0 fresh_create quiet_create
                Alive_create Hb) as (Hf0 & Hq0 & Ha0).
    destruct (reachable_invariants acts s0 s Hf0 Hq0 Ha0 Hr) as (Hf & Hq & Ha).
    destruct (Alive_drain (S (length (eventsQueue s))) s Hf Hq Ha
                (Nat.lt_succ_diag_r _))
      as (more & s' & Hh & Hr' & Hq').
    exists more, s'. split; [exact Hh|]. split; [exact Hr'|]. split; [exact Hq'|].
    assert (Hall : run (acts ++ more) s0 = Some s')
      by (rewrite run_app, Hr; exact Hr').
    apply run_fifo in Hall as (done & Hqd & Hc).
    2:{ rewrite forallb_app, Hn. simpl. apply hostActions_normal, Hh. }
    rewrite enqueued_app, (hostActions_enqueue_nothing more Hh), Hq',
      !app_nil_r in Hqd.
    subst done. split; [exact Hc|].
    intros Hall. rewrite Hc. f_equal. apply forallb_filter_id.
    apply forallb_forall. intros e _. apply Hall.
Qed.


(** C4.  For every call of [processExclusively] and every outcome of the
    handler call (and when the name matches no operation), one reaction
    after the settlement the returned promise and the executor's promise
    are each fulfilled exactly once; the completion callback is called
    first, then the executor's [resolve]; nothing escapes.  And when an
    executor chain carries a callback that throws, the callback is still
    called before [resolve], [resolve] is still called, and the executor's
    promise is fulfilled exactly once (on the success path [resolve] is
    called a second time by the [catch] handler, which changes nothing). *)
Theorem processExclusively_resolves_once :
  (forall (s : State) (ev : VideoInterface) (args : Any) (o : Outcome),
     fresh s ->
     let s1 := call (processExclusively ev args) s in
     let outer := nextPromise s in
     let p := S (nextPromise s) in
     isFulfilled outer s1 = false /\
     exists s2 t,
       run (settleActions ev p o ++ [React p]) s1 = Some s2 /\
       trace s2 = trace s1 ++ t /\
       resolutionObs t =
         [CallbackInvoked (ResolveOf outer); ResolveCalled outer; ResolveCalled p] /\
       escapes t = [] /\
       count_occ Nat.eq_dec (fulfilled s2) outer = 1 /\
       count_occ Nat.eq_dec (fulfilled s2) p = 1) /\
  (forall (s : State) (p : nat) (c : Chain) (e : Error) (o : Outcome),
     find_chain p s = Some c ->
     c_status c = InFlight ->
     c_callback c = Some (Raises e) ->
     isFulfilled p s = false ->
     exists s2 t rest,
       run (Settle p o :: reactSchedule p (Some (Raises e)) o) s = Some s2 /\
       trace s2 = trace s ++ t /\
       resolutionObs t = CallbackInvoked (Raises e) :: ResolveCalled p :: rest /\
       count_occ Nat.eq_dec (fulfilled s2) p = 1).
Proof.
  split.
  - intros s ev args o Hfresh s1 outer p.
    destruct (processExclusively_chain s ev args Hfresh)
      as (Hf & Hout & Hp & Hful & _).
    fold s1 outer p in Hf, Hout, Hp, Hful.
    split; [exact Hout|].
    assert (Hne : outer <> p) by (subst outer p; lia).
    assert (Hcount : forall l,
               existsb (Nat.eqb outer) l = false ->
               existsb (Nat.eqb p) l = false ->
               count_occ Nat.eq_dec (fulfil p (fulfil outer l)) outer = 1 /\
               count_occ Nat.eq_dec (fulfil p (fulfil outer l)) p = 1).
    { intros l Ho Hl. split.
      - rewrite count_occ_fulfil_other by exact Hne.
        apply count_occ_fulfil_same, Ho.
      - apply count_occ_fulfil_same.
        rewrite existsb_fulfil_other by congruence. exact Hl. }
    unfold settleActions. unfold started in Hf.
    destruct (responds ev).
    + destruct (settlement_run s1 p _ o Hf eq_refl)
        as (s2 & Hr & Ht & Hfu & _).
      cbn [c_callback c_event reactSchedule reactObs reactFulfils] in Hr, Ht, Hfu.
      exists s2. eexists. split; [exact Hr|]. split; [exact Ht|].
      split; [destruct o; reflexivity|]. split; [destruct o; reflexivity|].
      rewrite Hfu. apply Hcount; assumption.
    + destruct (reactions_run s1 p _ (Failure typeError) Hf eq_refl)
        as (s2 & Hr & Ht & Hfu & _).
      cbn [c_callback c_event reactSchedule reactObs reactFulfils] in Hr, Ht, Hfu.
      exists s2. eexists. split; [exact Hr|]. split; [exact Ht|].
      split; [reflexivity|]. split; [reflexivity|].
      rewrite Hfu. apply Hcount; assumption.
  - intros s p c e o Hf Hst Hcb Hp.
    destruct (settlement_run s p c o Hf Hst) as (s2 & Hr & Ht & Hfu & _).
    rewrite Hcb in Hr, Ht, Hfu. cbn [reactObs reactFulfils] in Ht, Hfu.
    destruct o; (exists s2; eexists; eexists);
      (split; [exact Hr|]); (split; [exact Ht|]); (split; [reflexivity|]);
      rewrite Hfu; apply count_occ_fulfil_same, Hp.
Qed.

(** C5.  A handler call that fails, and a command whose name matches no
    handler operation, end in the [catch] handler of the executor: a warning
    naming the command is logged, the executor's promise is resolved and the
    drain step requests the next frame, on which the next queued command is
    started.  No public method and no drain step completes with an
    exception, and in no run of the sequencer does an exception or a
    rejection escape.  The warning is logged for every pending handler call
    that fails, whichever path started it, and so for the command of
    [processExclusively]: its failure (or its unknown name) is logged with
    the command's name before the returned promise is resolved, and nothing
    escapes. *)
Theorem failures_are_swallowed :
  (forall (acts : list Action) (s : State),
     run acts createVideoEventSequencer = Some s -> escapes (trace s) = []) /\
  (forall (s : State) (ev : VideoInterface) (args : Any),
     snd (enqueueForProcessing ev args s) = Normal tt /\
     snd (processExclusively ev args s) = Normal (nextPromise s) /\
     snd (destroy s) = Normal tt /\
     snd (processLoop s) = Normal tt) /\
  (forall (s : State) (cmd : QueuedEvent) (q : list QueuedEvent) (e : Error),
     fresh s ->
     eventsQueue s = cmd :: q ->
     let p := nextPromise s in
     let h := nextHandle s in
     exists s3,
       run (settleActions (event cmd) p (Failure e) ++ [React p; Resume p])
         (fst (processLoop s)) = Some s3 /\
       trace s3 =
         trace s ++ startObs p (event cmd) (callArgs cmd) ++
         settledObs (event cmd) p (Failure e) ++
         [LogWarn (event cmd) (if responds (event cmd) then e else typeError);
          ResolveCalled p; RequestFrame h] /\
       In h (scheduledFrames s3) /\
       forall nxt q',
         q = nxt :: q' ->
         exists s4,
           step (Frame h) s3 = Some s4 /\
           trace s4 = trace s3 ++ startObs (S p) (event nxt) (callArgs nxt) /\
           eventsQueue s4 = q') /\
  (forall (s : State) (p : nat) (c : Chain) (e : Error),
     find_chain p s = Some c ->
     c_status c = InFlight ->
     exists s2 rest,
       run (Settle p (Failure e) :: reactSchedule p (c_callback c) (Failure e)) s
       = Some s2 /\
       trace s2 =
         trace s ++ HandlerSettled p (Failure e) :: LogWarn (c_event c) e :: rest) /\
  (forall (s : State) (ev : VideoInterface) (args : Any) (e : Error),
     fresh s ->
     let outer := nextPromise s in
     let p := S (nextPromise s) in
     exists s2,
       run (settleActions ev p (Failure e) ++ [React p])
         (call (processExclusively ev args) s) = Some s2 /\
       trace s2 =
         trace s ++ CancelFrame (currentAnimationFrame s) ::
         startObs p ev args ++ settledObs ev p (Failure e) ++
         [LogWarn ev (if responds ev then e else typeError);
          CallbackInvoked (ResolveOf outer); ResolveCalled outer;
          ResolveCalled p] /\
       escapes (trace s2) = escapes (trace s)).
Proof.
  split; [|split; [|split; [|split]]].
  4:{ intros s p c e Hf Hst.
      destruct (settlement_run s p c (Failure e) Hf Hst) as (s2 & Hr & Ht & _).
      exists s2. unfold reactObs in Ht.
      destruct (c_callback c) as [[q|x]|]; eexists;
        (split; [exact Hr|rewrite Ht; reflexivity]). }
  4:{ intros s ev args e Hfresh outer p.
      destruct (processExclusively_chain s ev args Hfresh)
        as (Hf & _ & _ & _ & Ht1).
      fold outer p in Hf, Ht1.
      unfold settleActions, settledObs. unfold started in Hf.
      destruct (responds ev).
      - destruct (settlement_run _ p _ (Failure e) Hf eq_refl)
          as (s2 & Hr & Ht & _).
        cbn [c_callback c_event reactObs warnObs] in Ht.
        change (reactSchedule p (c_callback
                  (mkChain p ev args (Some (ResolveOf outer)) InFlight))
                  (Failure e)) with [React p] in Hr.
        exists s2. split; [exact Hr|]. rewrite Ht, Ht1. split.
        + rewrite <- !app_assoc. reflexivity.
        + rewrite !escapes_app.
          change (escapes (CancelFrame (currentAnimationFrame s)
                             :: startObs (S outer) ev args))
            with (escapes (startObs (S outer) ev args)).
          rewrite escapes_startObs. cbn -[trace]. rewrite !app_nil_r.
          reflexivity.
      - destruct (reactions_run _ p _ (Failure typeError) Hf eq_refl)
          as (s2 & Hr & Ht & _).
        cbn [c_callback c_event reactObs warnObs] in Ht.
        change (reactSchedule p (c_callback
                  (mkChain p ev args (Some (ResolveOf outer))
                     (Settled (Failure typeError))))
                  (Failure typeError)) with [React p] in Hr.
        exists s2. split; [exact Hr|]. rewrite Ht, Ht1. split.
        + rewrite <- !app_assoc. reflexivity.
        + rewrite !escapes_app.
          change (escapes (CancelFrame (currentAnimationFrame s)
                             :: startObs (S outer) ev args))
            with (escapes (startObs (S outer) ev args)).
          rewrite escapes_startObs. cbn -[trace]. rewrite !app_nil_r.
          reflexivity. }
  - intros acts s Hr. exact (proj1 (quiet_run acts _ s quiet_create Hr)).
  - intros s ev args. split; [|split; [|split]].
    + rewrite enqueueForProcessing_eq. destruct (isProcessing s); [reflexivity|].
      rewrite processLoop_eq. simpl. destruct (_ ++ _); reflexivity.
    + rewrite processExclusively_eq, processNow_eq, destroy_eq. reflexivity.
    + rewrite destroy_eq. reflexivity.
    + rewrite processLoop_eq. destruct (eventsQueue s); reflexivity.
  - intros s cmd q e Hfresh Hq p h.
    destruct (drain_step_completes s cmd q (Failure e) Hfresh Hq)
      as (s3 & Hr & Ht & Hfr & _ & Hq3 & _ & Hn3).
    fold p h in Hr, Ht, Hfr, Hn3.
    exists s3. split; [exact Hr|]. split.
    { rewrite Ht. unfold outcomeOf. destruct (responds (event cmd)); reflexivity. }
    assert (Hin : In h (scheduledFrames s3))
      by (rewrite Hfr; apply in_or_app; right; left; reflexivity).
    split; [exact Hin|].
    intros nxt q' ->.
    destruct (next_tick_drains s3 h Hin) as (Hs & Hqf & Htf & Hnf).
    eexists. split; [exact Hs|].
    rewrite processLoop_eq, Hqf, Hq3. simpl. rewrite Hn3.
    split; reflexivity.
Qed.


(** C7 (amended).  [destroy()] empties the queue, cancels the tick recorded
    in [currentAnimationFrame] and sets the cycle flag to false.  When no
    drain step is waiting for its command at that moment, no tick is
    requested afterwards and the queue stays empty for as long as
    [enqueueForProcessing] is not called. *)
Theorem destroy_stops_until_next_enqueue
  (s : State) (acts : list Action) (s' : State) :
  forallb awaitsGate (awaits s) = true ->
  enqueued acts = [] ->
  run acts (call destroy s) = Some s' ->
  eventsQueue (call destroy s) = [] /\
  isProcessing (call destroy s) = false /\
  (forall h, currentAnimationFrame s = Some h ->
             ~ In h (scheduledFrames (call destroy s))) /\
  handlerCalls (trace (call destroy s)) = handlerCalls (trace s) /\
  frameRequests (trace s') = frameRequests (trace s) /\
  eventsQueue s' = [].
Proof.
  intros Hw Ha Hr.
  assert (E : call destroy s = fst (destroy s)) by reflexivity.
  rewrite E in *. rewrite destroy_eq in *. simpl in *.
  split; [reflexivity|]. split; [reflexivity|]. split.
  { intros h ->. apply remove_In. }
  split.
  { rewrite handlerCalls_app. simpl. apply app_nil_r. }
  match type of Hr with
  | run acts ?x = _ =>
      destruct (stopped_run acts x s' Ha eq_refl Hw Hr) as [Hq Hf]
  end.
  simpl in Hf.
  rewrite frameRequests_app in Hf. simpl in Hf. rewrite app_nil_r in Hf. auto.
Qed.


(** C9.  [destroy] never throws, and any number of calls in a row leaves
    the sequencer as one call does: the queue empty, the cycle flag false,
    every other variable and the host's table as after the first call (the
    log alone grows, by one cancellation request per call). *)
Theorem destroy_idempotent (s : State) (n : nat) :
  snd (destroy s) = Normal tt /\
  eventsQueue (Nat.iter (S n) (call destroy) s) = [] /\
  isProcessing (Nat.iter (S n) (call destroy) s) = false /\
  untraced (Nat.iter (S n) (call destroy) s) = untraced (call destroy s) /\
  trace (Nat.iter (S n) (call destroy) s) =
    trace s ++ repeat (CancelFrame (currentAnimationFrame s)) (S n).
Proof.
  split; [rewrite destroy_eq; reflexivity|].
  induction n as [|n (Hq & Hb & Hu & Ht)].
  - simpl. unfold call. rewrite destroy_eq. simpl. auto.
  - change (Nat.iter (S (S n)) (call destroy) s)
      with (call destroy (Nat.iter (S n) (call destroy) s)).
    remember (Nat.iter (S n) (call destroy) s) as x eqn:Ex. clear Ex.
    destruct (destroy_again x s Hu) as (Hq' & Hb' & Hu' & Ht').
    split; [exact Hq'|]. split; [exact Hb'|]. split; [exact Hu'|].
    rewrite Ht', Ht, <- app_assoc. f_equal.
    replace (S (S n)) with (S n + 1) by lia. rewrite repeat_app. reflexivity.
Qed.

(** C10.  [processExclusively] leaves the cycle flag false, and the
    settlement of the exclusive command does not change it; so a call of
    [enqueueForProcessing] made while the exclusive command is in flight
    starts a drain cycle at once, and its command is handed to the handler
    while the handler call of the exclusive command is still pending. *)
Theorem exclusive_call_leaves_cycle_inactive
  (s : State) (x : VideoInterface) (xargs : Any)
  (ev : VideoInterface) (args : Any) :
  responds x = true ->
  responds ev = true ->
  let s1 := call (processExclusively x xargs) s in
  let s2 := call (enqueueForProcessing ev args) s1 in
  let cx := mkChain (S (nextPromise s)) x xargs
              (Some (ResolveOf (nextPromise s))) InFlight in
  let ce := mkChain (S (S (nextPromise s))) ev args None InFlight in
  isProcessing s1 = false /\
  inFlight s1 = inFlight s ++ [cx] /\
  (forall acts s',
     forallb settlementAction acts = true ->
     run acts s1 = Some s' ->
     isProcessing s' = false) /\
  isProcessing s2 = true /\
  trace s2 = trace s1 ++ [LogInfo ev; HandlerCall (S (S (nextPromise s))) ev args] /\
  inFlight s2 = inFlight s ++ [cx; ce].
Proof.
  intros Hx Hev s1 s2 cx ce.
  assert (E1 : s1 = fst (processNow x xargs (fst (destroy s))))
    by apply call_processExclusively.
  rewrite processNow_eq, destroy_eq in E1. simpl in E1.
  unfold started, startObs in E1. rewrite Hx in E1.
  assert (E2 : s2 = fst (enqueueForProcessing ev args s1)).
  { subst s2. unfold call. rewrite enqueueForProcessing_eq, E1. simpl.
    rewrite processLoop_eq. reflexivity. }
  rewrite enqueueForProcessing_eq in E2. rewrite E1 in E2. simpl in E2.
  rewrite processLoop_eq in E2. simpl in E2.
  unfold started, startObs in E2. rewrite Hev in E2.
  split; [rewrite E1; reflexivity|]. split.
  { rewrite E1. unfold inFlight. simpl. rewrite filter_app. reflexivity. }
  split.
  { intros acts s' Ha Hr. rewrite (settlements_keep_flag acts s1 s' Ha Hr).
    rewrite E1. reflexivity. }
  split; [rewrite E2; reflexivity|]. split.
  { rewrite E2, E1. simpl. rewrite <- !app_assoc. reflexivity. }
  rewrite E2. unfold inFlight. simpl. rewrite !filter_app. simpl.
  rewrite <- app_assoc. reflexivity.
Qed.

(** ** Further properties *)

(** *** The cycle flag *)

(** X1.  On the normal path the cycle flag tells whether a drain cycle is
    under way: when it is false the queue is empty and nothing is pending or
    scheduled; when it is true exactly one drain step is suspended or
    exactly one tick is scheduled. *)
Theorem cycle_flag_tracks_activity (acts : list Action) (s : State) :
  forallb normalAction acts = true ->
  run acts createVideoEventSequencer = Some s ->
  (isProcessing s = false ->
   eventsQueue s = [] /\ chains s = [] /\ awaits s = [] /\
   scheduledFrames s = []) /\
  (isProcessing s = true ->
   length (awaits s) + length (scheduledFrames s) = 1).
Proof.
  intros Hn Hr.
  destruct (Cycle_run acts _ s Hn Cycle_create Hr); simpl;
    split; intros Hb; try discriminate Hb; auto.
Qed.

(** *** One command per action *)

(** X2.  No action hands more than one command to the handler, and the
    settlement of a handler call, the microtasks and [destroy] hand over
    none: only a call of [enqueueForProcessing] or [processExclusively] and
    a frame start a command. *)
Theorem one_handler_call_per_action (a : Action) (s s' : State) :
  step a s = Some s' ->
  exists calls,
    handlerCalls (trace s') = handlerCalls (trace s) ++ calls /\
    length calls <= 1 /\
    (settlementAction a = true \/ a = Destroy -> calls = []).
Proof.
  assert (Hone : forall p e,
             length (handlerCalls (startObs p (event e) (callArgs e))) <= 1).
  { intros p e. rewrite handlerCalls_startObs. simpl.
    destruct (respondsTo e); simpl; lia. }
  destruct a as [ev args|ev args| |h|p o|p|p]; simpl; intros Hs.
  - injection Hs as <-. unfold call. rewrite enqueueForProcessing_eq.
    destruct (isProcessing s).
    + exists []. simpl. rewrite app_nil_r. split; [reflexivity|]. split; [lia|auto].
    + rewrite processLoop_eq; simpl.
      destruct (eventsQueue s ++ [mkQueued ev args]) as [|e q'] eqn:Hq.
      * destruct (eventsQueue s); discriminate Hq.
      * eexists. simpl. rewrite handlerCalls_app. split; [reflexivity|].
        split; [apply Hone|]. intros [H|H]; discriminate H.
  - injection Hs as <-. rewrite call_processExclusively, processNow_eq, destroy_eq.
    exists (handlerCalls (startObs (S (nextPromise s)) ev args)).
    cbn [trace fst nextPromise]. rewrite !handlerCalls_app.
    change (handlerCalls [CancelFrame (currentAnimationFrame s)])
      with (@nil QueuedEvent).
    rewrite app_nil_r. split; [reflexivity|].
    split; [apply (Hone _ (mkQueued ev args))|]. intros [H|H]; discriminate H.
  - injection Hs as <-. unfold call. rewrite destroy_eq; simpl.
    exists []. rewrite handlerCalls_app; simpl. rewrite !app_nil_r.
    split; [reflexivity|]. split; [lia|auto].
  - destruct (frameScheduled h s); [|discriminate]. injection Hs as <-.
    unfold call, fireAndForget. rewrite processLoop_eq. simpl.
    destruct (eventsQueue s) as [|e q'] eqn:Hq; simpl.
    + exists []. rewrite app_nil_r. split; [reflexivity|]. split; [simpl; lia|auto].
    + eexists. rewrite handlerCalls_app. split; [reflexivity|].
      split; [apply Hone|]. intros [H|H]; discriminate H.
  - destruct (find_chain p s) as [c|]; [|discriminate].
    destruct (c_status c); try discriminate. injection Hs as <-.
    exists []. simpl. rewrite handlerCalls_app; simpl. rewrite !app_nil_r.
    split; [reflexivity|]. split; [lia|auto].
  - destruct (find_chain p s) as [c|]; [|discriminate].
    apply react_frame in Hs as (_ & _ & _ & _ & _ & _ & _ & Hc & _).
    exists []. rewrite Hc, app_nil_r. split; [reflexivity|]. split; [simpl; lia|auto].
  - destruct (find_await p s) as [k|]; [|discriminate].
    destruct (isFulfilled p s); [|discriminate]. injection Hs as <-.
    exists []. destruct k; unfold call, fireAndForget.
    + rewrite continue_LoopTail_eq. simpl.
      rewrite handlerCalls_app; simpl. rewrite !app_nil_r.
      split; [reflexivity|]. split; [lia|auto].
    + simpl. rewrite !app_nil_r. split; [reflexivity|]. split; [lia|auto].
Qed.


(** *** Bursts of [enqueueForProcessing] *)

Lemma burst_while_active (cs : list QueuedEvent) (s : State) :
  isProcessing s = true ->
  run (enqueueAll cs) s =
  Some (mkState true (eventsQueue s ++ cs) (currentAnimationFrame s)
          (scheduledFrames s) (nextHandle s) (nextPromise s) (fulfilled s)
          (chains s) (awaits s) (trace s)).
Proof.
  revert s. induction cs as [|c cs IH]; intros s Hb.
  - simpl. rewrite app_nil_r. destruct s; simpl in *. subst. reflexivity.
  - unfold enqueueAll. cbn [map]. fold (enqueueAll cs). rewrite run_cons.
    unfold step, call. rewrite enqueueForProcessing_eq, Hb.
    rewrite IH by reflexivity. simpl. rewrite <- app_assoc.
    destruct c. reflexivity.
Qed.

(** X3.  When commands are enqueued in a burst on an inactive sequencer with
    an empty queue, the first one is handed to the handler inside its own
    call of [enqueueForProcessing]; the others are queued in order and none
    of them is started before a frame fires: the burst requests no frame
    and makes no other handler call. *)
Theorem burst_on_idle_starts_first_only
  (s : State) (c : QueuedEvent) (cs : list QueuedEvent) :
  isProcessing s = false ->
  eventsQueue s = [] ->
  exists s',
    run (enqueueAll (c :: cs)) s = Some s' /\
    trace s' = trace s ++ startObs (nextPromise s) (event c) (callArgs c) /\
    eventsQueue s' = cs /\
    isProcessing s' = true /\
    scheduledFrames s' = scheduledFrames s.
Proof.
  intros Hb Hq. unfold enqueueAll. cbn [map]. fold (enqueueAll cs).
  rewrite run_cons. unfold step, call.
  rewrite enqueueForProcessing_eq, Hb, processLoop_eq, Hq. simpl.
  rewrite burst_while_active by reflexivity. simpl.
  eexists. split; [reflexivity|]. simpl. destruct c. auto.
Qed.

(** *** What a preemption leaves running *)

Lemma find_app_found {A} (f : A -> bool) (l l' : list A) (x : A) :
  find f l = Some x -> find f (l ++ l') = Some x.
Proof.
  induction l as [|y l IH]; simpl; [discriminate|].
  destruct (f y); [auto|exact IH].
Qed.

(** A call of a public method is always possible, and it neither removes
    nor changes a pending chain or a suspended function. *)
Lemma public_step_keeps_pending (a : Action) (s : State) :
  publicAction a = true ->
  exists s',
    step a s = Some s' /\
    (forall p c, find_chain p s = Some c -> find_chain p s' = Some c) /\
    (forall p k, find_await p s = Some k -> find_await p s' = Some k) /\
    fulfilled s' = fulfilled s /\
    nextHandle s' = nextHandle s /\
    frameRequests (trace s') = frameRequests (trace s).
Proof.
  assert (Haw : forall p k (l l' : list (nat * Continuation)),
             match find (fun w => Nat.eqb (fst w) p) l with
             | Some w => Some (snd w) | None => None end = Some k ->
             match find (fun w => Nat.eqb (fst w) p) (l ++ l') with
             | Some w => Some (snd w) | None => None end = Some k).
  { intros p k l l' H.
    destruct (find _ l) as [w|] eqn:E; [|discriminate].
    rewrite (find_app_found _ l l' w E). exact H. }
  intros Ha. destruct a as [ev args|ev args| |h|p o|p|p]; try discriminate Ha;
    eexists; (split; [reflexivity|]).
  - unfold call. rewrite enqueueForProcessing_eq.
    destruct (isProcessing s); [simpl; auto 10|].
    rewrite processLoop_eq. simpl.
    destruct (eventsQueue s ++ [mkQueued ev args]) as [|e q] eqn:Hq.
    { destruct (eventsQueue s); discriminate Hq. }
    unfold find_chain, find_await. simpl.
    rewrite frameRequests_app, frameRequests_startObs, app_nil_r.
    repeat split; auto using find_app_found.
  - rewrite call_processExclusively, processNow_eq, destroy_eq.
    unfold find_chain, find_await. simpl.
    rewrite !frameRequests_app, frameRequests_startObs. simpl.
    rewrite !app_nil_r. repeat split; auto using find_app_found.
  - unfold call. rewrite destroy_eq. unfold find_chain, find_await. simpl.
    rewrite frameRequests_app. simpl. rewrite app_nil_r. auto 10.
Qed.

Lemma public_run_keeps_pending (calls : list Action) (s : State) :
  forallb publicAction calls = true ->
  exists s',
    run calls s = Some s' /\
    (forall p c, find_chain p s = Some c -> find_chain p s' = Some c) /\
    (forall p k, find_await p s = Some k -> find_await p s' = Some k).
Proof.
  revert s. induction calls as [|a calls IH]; intros s Hall.
  - exists s. simpl. auto.
  - simpl in Hall. apply andb_prop in Hall as [Ha Hall].
    destruct (public_step_keeps_pending a s Ha) as (s1 & Hs & Hc & Hw & _).
    destruct (IH s1 Hall) as (s' & Hr & Hc' & Hw').
    exists s'. rewrite run_cons, Hs. auto.
Qed.

(** X4.  Neither [destroy] nor [processExclusively] stops a drain step that
    is waiting for its command: when the handler call settles, whatever the
    outcome, the rest of [processLoop] runs, requests a frame and records it
    in [currentAnimationFrame], although the cycle flag is false and the
    queue is empty. *)
Theorem preemption_keeps_suspended_drain_step
  (a : Action) (s : State) (p : nat) (c : Chain) (o : Outcome) :
  preempts a = true ->
  find_chain p s = Some c ->
  c_status c = InFlight ->
  c_callback c = None ->
  find_await p s = Some LoopTail ->
  exists s',
    run [a; Settle p o; React p; Resume p] s = Some s' /\
    isProcessing s' = false /\
    eventsQueue s' = [] /\
    currentAnimationFrame s' = Some (nextHandle s) /\
    In (nextHandle s) (scheduledFrames s') /\
    frameRequests (trace s') = frameRequests (trace s) ++ [nextHandle s].
Proof.
  intros Ha Hf Hst Hcb Hw.
  assert (Hpub : publicAction a = true) by (destruct a; try discriminate Ha; reflexivity).
  destruct (public_step_keeps_pending a s Hpub)
    as (s1 & Hs1 & Hkc & Hkw & _ & Hnh & Hfr).
  assert (Hreset : isProcessing s1 = false /\ eventsQueue s1 = []).
  { destruct a as [ev args|ev args| |h|q x|q|q]; try discriminate Ha;
      simpl in Hs1; injection Hs1 as <-.
    - rewrite call_processExclusively, processNow_eq, destroy_eq. auto.
    - unfold call. rewrite destroy_eq. auto. }
  destruct Hreset as [Hb1 Hq1].
  destruct (settlement_run s1 p c o (Hkc p c Hf) Hst)
    as (s2 & Hr & Ht & Hfu & _ & Hq2 & Hb2 & _ & Hfr2 & Hh2 & Ha2 & _).
  rewrite Hcb in Hr, Ht, Hfu. unfold reactFulfils in Hfu.
  change (reactSchedule p None o) with [React p] in Hr.
  assert (Hw2 : find_await p s2 = Some LoopTail).
  { unfold find_await. rewrite Ha2. apply (Hkw p LoopTail Hw). }
  assert (Hdone : isFulfilled p s2 = true).
  { unfold isFulfilled. rewrite Hfu. apply existsb_fulfil_same. }
  eexists. split.
  - rewrite run_cons, Hs1.
    change [Settle p o; React p; Resume p]
      with ([Settle p o; React p] ++ [Resume p]).
    rewrite run_app, Hr, run_cons, (step_Resume_LoopTail p s2 Hw2 Hdone).
    reflexivity.
  - simpl. rewrite Hb2, Hb1, Hq2, Hq1, Hh2, Hnh, Hfr2, Ht.
    rewrite !frameRequests_app, Hfr.
    assert (E : frameRequests
                  (HandlerSettled p o :: reactObs (c_event c) p None o) = []).
    { destruct o; reflexivity. }
    rewrite E, app_nil_r. repeat split; auto.
    apply in_or_app. right. left. reflexivity.
Qed.

(** X5.  No call of a public method withdraws the promise returned by
    [processExclusively]: after any sequence of [enqueueForProcessing],
    [processExclusively] and [destroy] calls made while the exclusive
    command is in flight, its settlement is still followed by one reaction
    that calls the returned promise's [resolve] and then the executor's. *)
Theorem exclusive_promise_survives_public_calls
  (s : State) (p outer : nat) (c : Chain) (calls : list Action) (o : Outcome) :
  find_chain p s = Some c ->
  c_status c = InFlight ->
  c_callback c = Some (ResolveOf outer) ->
  forallb publicAction calls = true ->
  exists s1 s2 t,
    run calls s = Some s1 /\
    run [Settle p o; React p] s1 = Some s2 /\
    trace s2 = trace s1 ++ t /\
    resolutionObs t =
      [CallbackInvoked (ResolveOf outer); ResolveCalled outer; ResolveCalled p] /\
    isFulfilled outer s2 = true /\
    isFulfilled p s2 = true.
Proof.
  intros Hf Hst Hcb Hall.
  destruct (public_run_keeps_pending calls s Hall) as (s1 & Hr1 & Hkc & _).
  destruct (settlement_run s1 p c o (Hkc p c Hf) Hst)
    as (s2 & Hr & Ht & Hfu & _).
  rewrite Hcb in Hr, Ht, Hfu. unfold reactFulfils in Hfu.
  change (reactSchedule p (Some (ResolveOf outer)) o) with [React p] in Hr.
  exists s1, s2. eexists. split; [exact Hr1|]. split; [exact Hr|].
  split; [exact Ht|]. split; [destruct o; reflexivity|].
  unfold isFulfilled. rewrite Hfu. split; [|apply existsb_fulfil_same].
  destruct (Nat.eq_dec outer p) as [->|Hne]; [apply existsb_fulfil_same|].
  rewrite existsb_fulfil_other by exact Hne. apply existsb_fulfil_same.
Qed.


(** *** The log *)

Lemma infoLog_app (t u : list Obs) : infoLog (t ++ u) = infoLog t ++ infoLog u.
Proof.
  induction t as [|o t IH]; simpl; [reflexivity|].
  destruct o; simpl; rewrite IH; reflexivity.
Qed.

Lemma infoLog_startObs p ev args : infoLog (startObs p ev args) = [ev].
Proof. unfold startObs. destruct (responds ev); reflexivity. Qed.

Lemma warnings_app (t u : list Obs) : warnings (t ++ u) = warnings t ++ warnings u.
Proof. apply filter_app. Qed.

Lemma warnings_startObs p ev args : warnings (startObs p ev args) = [].
Proof. unfold startObs. destruct (responds ev); reflexivity. Qed.

Lemma react_infoLog (c : Chain) (s s' : State) :
  react c s = Some s' -> infoLog (trace s') = infoLog (trace s).
Proof.
  destruct s as [b q cur fr nh np ful ch aw tr].
  destruct c as [p ev args [[r|x]|] [|[|e]|e]]; js_unfold; simpl;
    intros H; try discriminate H; injection H as <-; simpl;
    rewrite <- ?app_assoc, ?infoLog_app; simpl;
    rewrite ?app_nil_r; reflexivity.
Qed.

Lemma step_logged (a : Action) (s s' : State) :
  step a s = Some s' ->
  exists done,
    infoLog (trace s') = infoLog (trace s) ++ map event done /\
    handlerCalls (trace s') = handlerCalls (trace s) ++ filter respondsTo done.
Proof.
  destruct a as [ev args|ev args| |h|p o|p|p]; simpl; intros Hs.
  - injection Hs as <-. unfold call. rewrite enqueueForProcessing_eq.
    destruct (isProcessing s).
    + exists []. simpl. rewrite !app_nil_r. auto.
    + rewrite processLoop_eq; simpl.
      destruct (eventsQueue s ++ [mkQueued ev args]) as [|e q'] eqn:Hq.
      * destruct (eventsQueue s); discriminate Hq.
      * exists [e]. simpl.
        rewrite infoLog_app, infoLog_startObs, handlerCalls_app,
          handlerCalls_startObs. auto.
  - injection Hs as <-. rewrite call_processExclusively, processNow_eq, destroy_eq.
    exists [mkQueued ev args]. cbn [trace fst nextPromise currentAnimationFrame].
    rewrite !infoLog_app, infoLog_startObs, !handlerCalls_app.
    change ev with (event (mkQueued ev args)) at 3.
    change args with (callArgs (mkQueued ev args)) at 2.
    rewrite handlerCalls_startObs. simpl. rewrite !app_nil_r. auto.
  - injection Hs as <-. unfold call. rewrite destroy_eq; simpl.
    exists []. rewrite infoLog_app, handlerCalls_app; simpl.
    rewrite !app_nil_r. auto.
  - destruct (frameScheduled h s); [|discriminate]. injection Hs as <-.
    unfold call, fireAndForget. rewrite processLoop_eq. simpl.
    destruct (eventsQueue s) as [|e q'] eqn:Hq; simpl.
    + exists []. simpl. rewrite !app_nil_r. auto.
    + exists [e]. rewrite infoLog_app, infoLog_startObs, handlerCalls_app,
        handlerCalls_startObs. auto.
  - destruct (find_chain p s) as [c|]; [|discriminate].
    destruct (c_status c); try discriminate. injection Hs as <-.
    exists []. simpl. rewrite infoLog_app, handlerCalls_app; simpl.
    rewrite !app_nil_r. auto.
  - destruct (find_chain p s) as [c|]; [|discriminate].
    pose proof (react_infoLog c s s' Hs) as Hi.
    apply react_frame in Hs as (_ & _ & _ & _ & _ & _ & _ & Hc & _).
    exists []. simpl. rewrite Hi, Hc, !app_nil_r. auto.
  - destruct (find_await p s) as [k|]; [|discriminate].
    destruct (isFulfilled p s); [|discriminate]. injection Hs as <-.
    exists []. destruct k; unfold call, fireAndForget.
    + rewrite continue_LoopTail_eq. simpl.
      rewrite infoLog_app, handlerCalls_app; simpl. rewrite !app_nil_r. auto.
    + simpl. rewrite !app_nil_r. auto.
Qed.

Lemma run_logged (acts : list Action) (s s' : State) :
  run acts s = Some s' ->
  exists done,
    infoLog (trace s') = infoLog (trace s) ++ map event done /\
    handlerCalls (trace s') = handlerCalls (trace s) ++ filter respondsTo done.
Proof.
  revert s. induction acts as [|a acts IH]; intros s Hr.
  - simpl in Hr. injection Hr as <-. exists []. simpl. rewrite !app_nil_r. auto.
  - rewrite run_cons in Hr. destruct (step a s) as [s1|] eqn:Hs; [|discriminate].
    destruct (step_logged a s s1 Hs) as (d1 & Hi1 & Hc1).
    destruct (IH s1 Hr) as (d2 & Hi2 & Hc2).
    exists (d1 ++ d2).
    rewrite Hi2, Hi1, Hc2, Hc1, map_app, filter_app, <- !app_assoc. auto.
Qed.

(** X6.  In every run, whatever is called and in whatever order, the names
    passed to [logger.info] are the names of the commands started, in the
    order they were started, and the handler calls are those of these
    commands whose name the handler answers to: no command reaches the
    handler without having been logged, and a command the handler lacks is
    logged all the same. *)
Theorem every_started_command_is_logged (acts : list Action) (s : State) :
  run acts createVideoEventSequencer = Some s ->
  exists started_commands,
    infoLog (trace s) = map event started_commands /\
    handlerCalls (trace s) = filter respondsTo started_commands.
Proof.
  intros Hr. destruct (run_logged acts _ s Hr) as (done & Hi & Hc).
  exists done. auto.
Qed.

Lemma calm_step (a : Action) (s s' : State) :
  (forall ev, responds ev = true) ->
  succeeds a = true ->
  warnings (trace s) = [] ->
  forallb sound (chains s) = true ->
  step a s = Some s' ->
  warnings (trace s') = [] /\ forallb sound (chains s') = true.
Proof.
  intros Hall Ha Hw Hc Hs.
  assert (Hstart : forall ev, started ev = InFlight)
    by (intros ev; unfold started; rewrite Hall; reflexivity).
  assert (Hloop : forall x,
             warnings (trace x) = [] -> forallb sound (chains x) = true ->
             warnings (trace (fst (processLoop x))) = [] /\
             forallb sound (chains (fst (processLoop x))) = true).
  { intros x Hwx Hcx. rewrite processLoop_eq.
    destruct (eventsQueue x) as [|e q]; simpl; [auto|].
    rewrite warnings_app, warnings_startObs, Hwx, forallb_app, Hcx, Hstart. auto. }
  destruct a as [ev args|ev args| |h|p o|p|p]; simpl in Hs.
  - injection Hs as <-. unfold call. rewrite enqueueForProcessing_eq.
    destruct (isProcessing s); [simpl; auto|].
    match goal with
    | |- context [processLoop ?x] =>
        pose proof (Hloop x Hw Hc) as H;
        destruct (processLoop x) as [s1 [[]|e]] eqn:E; [exact H|]
    end.
    rewrite processLoop_eq in E. simpl in E. destruct (_ ++ _) in E; discriminate E.
  - injection Hs as <-. rewrite call_processExclusively, processNow_eq, destroy_eq.
    simpl. rewrite !warnings_app, warnings_startObs, Hw, forallb_app, Hc, Hstart.
    auto.
  - injection Hs as <-. unfold call. rewrite destroy_eq. simpl.
    rewrite warnings_app, Hw. auto.
  - destruct (frameScheduled h s); [|discriminate]. injection Hs as <-.
    unfold call, fireAndForget.
    pose proof (Hloop (fire h s) Hw Hc) as H.
    destruct (processLoop (fire h s)) as [s1 [[]|e]] eqn:E; [exact H|].
    rewrite processLoop_eq in E. destruct (eventsQueue (fire h s)); discriminate E.
  - destruct (find_chain p s) as [c|]; [|discriminate].
    destruct (c_status c); try discriminate. injection Hs as <-. simpl.
    rewrite warnings_app, Hw. split; [reflexivity|].
    destruct o as [|e]; [|discriminate Ha].
    rewrite forallb_forall in *. intros x Hx.
    apply in_map_iff in Hx as (y & <- & Hy). specialize (Hc y Hy).
    destruct (Nat.eqb (c_promise y) p); [|exact Hc].
    unfold sound, benign in *. simpl.
    destruct (c_callback y) as [[r|r]|]; simpl in *; try discriminate; reflexivity.
  - destruct (find_chain p s) as [c|] eqn:Hf; [|discriminate].
    assert (Hsound : sound c = true)
      by (exact (proj1 (forallb_forall _ _) Hc c (find_chain_In p s c Hf))).
    unfold sound, benign in Hsound.
    destruct (c_callback c) as [[q|e]|] eqn:Hcb; [|discriminate|];
      (destruct (c_status c) as [|[|x]|x] eqn:Hst; try discriminate Hsound;
       [unfold react in Hs; rewrite Hst in Hs; discriminate|]);
      first [rewrite (react_ResolveOf_eq c q s Hcb) in Hs by congruence
            |rewrite (react_plain_eq c s Hcb) in Hs by congruence];
      injection Hs as <-; simpl; rewrite Hst, warnings_app, Hw; simpl;
      (split; [reflexivity|apply forallb_filter_keeps, Hc]).
  - destruct (find_await p s) as [k|]; [|discriminate].
    destruct (isFulfilled p s); [|discriminate]. injection Hs as <-.
    destruct k; unfold call, fireAndForget;
      [rewrite continue_LoopTail_eq|]; simpl; rewrite ?warnings_app, Hw; auto.
Qed.

(** X7.  When the handler has every operation and no handler call fails,
    the sequencer logs no warning, whatever is called and in whatever
    order. *)
Theorem no_warning_without_failure (acts : list Action) (s : State) :
  (forall ev, responds ev = true) ->
  forallb succeeds acts = true ->
  run acts createVideoEventSequencer = Some s ->
  warnings (trace s) = [].
Proof.
  intros Hall Hok Hr.
  assert (H : forall acts0 s0, forallb succeeds acts0 = true ->
            warnings (trace s0) = [] -> forallb sound (chains s0) = true ->
            run acts0 s0 = Some s -> warnings (trace s) = []).
  { induction acts0 as [|a acts0 IH]; intros s0 Hs Hw Hc Hrun.
    - simpl in Hrun. injection Hrun as <-. exact Hw.
    - simpl in Hs. apply andb_prop in Hs as [Ha Hs]. rewrite run_cons in Hrun.
      destruct (step a s0) as [s1|] eqn:Hstep; [|discriminate].
      destruct (calm_step a s0 s1 Hall Ha Hw Hc Hstep) as [Hw1 Hc1].
      exact (IH s1 Hs Hw1 Hc1 Hrun). }
  apply (H acts createVideoEventSequencer Hok); [reflexivity|reflexivity|exact Hr].
Qed.


(** *** Order of dispatch in every run *)

Lemma Subseq_refl {A} (l : list A) : Subseq l l.
Proof. induction l; [constructor|apply Subseq_keep; assumption]. Qed.

Lemma Subseq_nil_l {A} (l : list A) : Subseq [] l.
Proof. induction l; constructor; assumption. Qed.

Lemma Subseq_app {A} (l1 m1 l2 m2 : list A) :
  Subseq l1 m1 -> Subseq l2 m2 -> Subseq (l1 ++ l2) (m1 ++ m2).
Proof.
  intros H1 H2.
  induction H1; simpl; [exact H2|apply Subseq_skip|apply Subseq_keep]; assumption.
Qed.

Lemma Subseq_skip_app {A} (p l m : list A) : Subseq l m -> Subseq l (p ++ m).
Proof. intros H. induction p; simpl; [exact H|constructor; exact IHp]. Qed.

Lemma Subseq_trans {A} (l m n : list A) :
  Subseq l m -> Subseq m n -> Subseq l n.
Proof.
  intros H1 H2. revert l H1.
  induction H2 as [|x m n _ IH|x m n _ IH]; intros l H1.
  - exact H1.
  - apply Subseq_skip, IH, H1.
  - inversion H1; subst.
    + apply Subseq_skip, IH. assumption.
    + apply Subseq_keep, IH. assumption.
Qed.

Lemma Subseq_app_l {A} (l1 l2 : list A) : Subseq l1 (l1 ++ l2).
Proof.
  rewrite <- (app_nil_r l1) at 1.
  apply Subseq_app; [apply Subseq_refl|apply Subseq_nil_l].
Qed.

Lemma Subseq_filter {A} (f : A -> bool) (l : list A) : Subseq (filter f l) l.
Proof.
  induction l as [|x l IH]; simpl; [constructor|].
  destruct (f x); [apply Subseq_keep|apply Subseq_skip]; exact IH.
Qed.

Lemma run_in_submission_order (acts : list Action) (s s' : State) :
  run acts s = Some s' ->
  exists done,
    handlerCalls (trace s') = handlerCalls (trace s) ++ filter respondsTo done /\
    Subseq (done ++ eventsQueue s') (eventsQueue s ++ submitted acts).
Proof.
  revert s. induction acts as [|a acts IH]; intros s Hr.
  - simpl in Hr. injection Hr as <-. exists []. simpl.
    rewrite !app_nil_r. split; [reflexivity|apply Subseq_refl].
  - rewrite run_cons in Hr. destruct (step a s) as [s1|] eqn:Hs; [|discriminate].
    destruct (step_dispatch a s s1 Hs) as (d1 & Hc1 & Hq1).
    destruct (IH s1 Hr) as (d2 & Hc2 & Hsub).
    exists (d1 ++ d2). split.
    { rewrite Hc2, Hc1, filter_app, app_assoc. reflexivity. }
    rewrite submitted_cons, <- app_assoc.
    destruct a as [ev args|ev args| |h|p o|p|p]; simpl in Hq1 |- *.
    + replace (eventsQueue s ++ mkQueued ev args :: submitted acts)
        with ((eventsQueue s ++ [mkQueued ev args]) ++ submitted acts)
        by (rewrite <- app_assoc; reflexivity).
      rewrite Hq1, <- app_assoc.
      apply Subseq_app; [apply Subseq_refl|exact Hsub].
    + destruct Hq1 as [-> Hq1]. rewrite Hq1 in Hsub. simpl in Hsub |- *.
      apply Subseq_skip_app, Subseq_keep. exact Hsub.
    + destruct Hq1 as [-> Hq1]. rewrite Hq1 in Hsub. simpl in Hsub |- *.
      apply Subseq_skip_app. exact Hsub.
    + rewrite app_nil_r in Hq1. rewrite Hq1, <- app_assoc.
      apply Subseq_app; [apply Subseq_refl|exact Hsub].
    + rewrite app_nil_r in Hq1. rewrite Hq1, <- app_assoc.
      apply Subseq_app; [apply Subseq_refl|exact Hsub].
    + rewrite app_nil_r in Hq1. rewrite Hq1, <- app_assoc.
      apply Subseq_app; [apply Subseq_refl|exact Hsub].
    + rewrite app_nil_r in Hq1. rewrite Hq1, <- app_assoc.
      apply Subseq_app; [apply Subseq_refl|exact Hsub].
Qed.

(** X8.  In every run, with any number of [processExclusively] and [destroy]
    calls and however the drain steps interleave, the commands reach the
    handler in the order in which they were submitted: the sequence of
    handler calls is the sequence of submitted commands with some of them
    left out. *)
Theorem dispatch_follows_submission_order (acts : list Action) (s : State) :
  run acts createVideoEventSequencer = Some s ->
  Subseq (handlerCalls (trace s)) (submitted acts).
Proof.
  intros Hr. destruct (run_in_submission_order acts _ s Hr) as (done & Hc & Hsub).
  simpl in Hc, Hsub. rewrite Hc.
  apply Subseq_trans with done; [apply Subseq_filter|].
  apply Subseq_trans with (done ++ eventsQueue s); [apply Subseq_app_l|exact Hsub].
Qed.


(** *** An exclusive command on a sequencer at rest *)

(** X10.  [processExclusively] does not depend on the frame clock and leaves
    nothing behind: called when no chain is pending and no function is
    suspended, the settlement of its command and the two microtasks that
    follow fulfil both promises and bring the sequencer back to rest, with
    no chain, no suspended function, an empty queue, the flag false, and no
    frame requested. *)
Theorem exclusive_at_rest_leaves_nothing_behind
  (s : State) (ev : VideoInterface) (args : Any) (o : Outcome) :
  chains s = [] ->
  awaits s = [] ->
  Forall (fun x => x < nextPromise s) (fulfilled s) ->
  exists s2,
    run (settleActions ev (S (nextPromise s)) o ++
         [React (S (nextPromise s)); Resume (S (nextPromise s))])
      (call (processExclusively ev args) s) = Some s2 /\
    chains s2 = [] /\
    awaits s2 = [] /\
    eventsQueue s2 = [] /\
    isProcessing s2 = false /\
    fulfilled s2 = fulfilled s ++ [nextPromise s; S (nextPromise s)] /\
    frameRequests (trace s2) = frameRequests (trace s).
Proof.
  intros Hch Haw Hful.
  pose proof (existsb_eqb_fresh _ _ Hful) as Hout.
  assert (Hin : existsb (Nat.eqb (S (nextPromise s)))
                  (fulfilled s ++ [nextPromise s]) = false).
  { apply existsb_eqb_fresh, Forall_app. split.
    - apply Forall_lt_S, Hful.
    - constructor; [lia|constructor]. }
  rewrite call_processExclusively, processNow_eq, destroy_eq.
  destruct s as [b q cur fr nh np ful ch aw tr]. simpl in *. subst ch aw.
  unfold settleActions, started, startObs.
  destruct (responds ev); destruct o; simpl;
    unfold find_chain, find_await, isFulfilled; simpl;
    rewrite ?Nat.eqb_refl; simpl;
    unfold react, isFulfilled; js_unfold; simpl;
    repeat (progress (rewrite ?Nat.eqb_refl, ?Hout, ?Hin; simpl));
    rewrite ?existsb_app; simpl; rewrite ?Nat.eqb_refl, ?orb_true_r; simpl.
  all: eexists; split; [reflexivity|]; simpl;
    rewrite <- ?app_assoc, ?frameRequests_app; simpl;
    rewrite ?app_nil_r; repeat split; reflexivity.
Qed.


(** X11.  [ensureResolve] is a [try]/[finally] without a [catch]: given a
    callback that throws, it still calls [resolve], so the executor's
    promise is fulfilled, but it completes with the error, and a chain of
    [processNextEvent] carrying such a callback ends in a rejection that
    has no handler.  ([processExclusively] never passes such a callback.) *)
Theorem throwing_callback_still_resolves_but_escapes
  (s : State) (p : nat) (c : Chain) (e : Error) (o : Outcome) :
  find_chain p s = Some c ->
  c_status c = InFlight ->
  c_callback c = Some (Raises e) ->
  (exists s',
     ensureResolve (resolvePromise p) (Some (Raises e)) s = (s', Throw e) /\
     isFulfilled p s' = true /\
     trace s' = trace s ++ [CallbackInvoked (Raises e); ResolveCalled p]) /\
  (exists s2 t,
     run (Settle p o :: reactSchedule p (Some (Raises e)) o) s = Some s2 /\
     trace s2 = trace s ++ t /\
     t = HandlerSettled p o :: reactObs (c_event c) p (Some (Raises e)) o /\
     In (ResolveCalled p) t /\
     isFulfilled p s2 = true /\
     escapes t = [UnhandledRejection e]).
Proof.
  intros Hf Hst Hcb. split.
  - eexists. split; [reflexivity|]. simpl. split.
    + unfold isFulfilled. simpl. apply existsb_fulfil_same.
    + rewrite <- app_assoc. reflexivity.
  - destruct (settlement_run s p c o Hf Hst) as (s2 & Hr & Ht & Hfu & _).
    rewrite Hcb in Hr, Ht, Hfu.
    exists s2. eexists. split; [exact Hr|]. split; [exact Ht|].
    split; [reflexivity|]. split.
    { destruct o; simpl; auto 10. }
    split.
    { unfold isFulfilled. rewrite Hfu. apply existsb_fulfil_same. }
    destruct o; reflexivity.
Qed.

End Sequencer.

(** X9.  The enumerators have pairwise distinct string values: no two
    commands are looked up under the same property of the handler. *)
Theorem operationName_injective (a b : VideoInterface) :
  operationName a = operationName b -> a = b.
Proof. destruct a, b; intros H; try reflexivity; discriminate H. Qed.


(** ** Concrete runs *)



(** C2, witness: three commands enqueued after a preemption that left a
    drain step behind; the exclusive [pause] is still in flight and a tick
    of the old drain step is scheduled. *)
Lemma enqueue_fifo_order_witness :
  exists s0 s,
    run fullHandler
      [Enqueue PLAY "a"; Exclusively PAUSE "x"; Settle 0 Success; React 0;
       Resume 0]
      createVideoEventSequencer = Some s0 /\
    run fullHandler
      [Enqueue SEEK "b"; Enqueue REWIND "c"; Settle 3 Success; Enqueue NEXT "d"]
      s0 = Some s /\
    exists more s',
      forallb hostAction more = true /\
      run fullHandler more s = Some s' /\
      eventsQueue s' = [] /\
      handlerCalls (trace s') =
        [mkQueued PLAY "a"; mkQueued PAUSE "x"] ++
        [mkQueued SEEK "b"; mkQueued REWIND "c"; mkQueued NEXT "d"].
Proof.
  eexists. eexists.
  match goal with
  | |- ?B /\ ?R /\ _ =>
      assert (Hb : B) by (vm_compute; reflexivity);
      assert (Hr : R) by (vm_compute; reflexivity)
  end.
  split; [exact Hb|]. split; [exact Hr|].
  destruct (enqueue_fifo_order fullHandler
              [Enqueue PLAY "a"; Exclusively PAUSE "x"; Settle 0 Success;
               React 0; Resume 0]
              [Enqueue SEEK "b"; Enqueue REWIND "c"; Settle 3 Success;
               Enqueue NEXT "d"] _ _ Hb eq_refl Hr)
    as [_ (more & s' & Hh & Hr' & Hq & _ & Hall)].
  exists more, s'. repeat split; try assumption.
  apply Hall. reflexivity.
Defined.


(** C4, witness: an exclusive [play] whose handler call fails, from the
    initial state. *)
Lemma processExclusively_resolves_once_witness :
  exists s2 t,
    run fullHandler [Settle 1 (Failure "boom"); React 1]
      (call (processExclusively fullHandler PLAY "a") createVideoEventSequencer)
    = Some s2 /\
    trace s2 =
      trace (call (processExclusively fullHandler PLAY "a")
               createVideoEventSequencer) ++ t /\
    resolutionObs t =
      [CallbackInvoked (ResolveOf 0); ResolveCalled 0; ResolveCalled 1] /\
    count_occ Nat.eq_dec (fulfilled s2) 0 = 1 /\
    count_occ Nat.eq_dec (fulfilled s2) 1 = 1.
Proof.
  destruct (proj1 (processExclusively_resolves_once fullHandler)
              createVideoEventSequencer PLAY "a" (Failure "boom"))
    as [_ (s2 & t & Hr & Ht & Hres & _ & Ho & Hp)].
  { repeat split; constructor. }
  exists s2, t. repeat split; assumption.
Defined.

(** C5, witness: the handler lacks [seek]; the drain step that takes [seek]
    from the queue logs the warning and requests the frame on which [pause]
    is started.  And [pause], executed exclusively from the initial state,
    fails: the warning is logged before the returned promise is resolved. *)
Lemma failures_are_swallowed_witness :
  (exists s0,
     run noSeekHandler
       [Enqueue PLAY "a"; Enqueue SEEK "b"; Enqueue PAUSE "c";
        Settle 0 Success; React 0; Resume 0]
       createVideoEventSequencer = Some s0 /\
     exists s3,
       run noSeekHandler [React 1; Resume 1]
         (fst (processLoop noSeekHandler (fire 0 s0))) = Some s3 /\
       trace s3 =
         trace s0 ++ [LogInfo SEEK; LogWarn SEEK typeError; ResolveCalled 1;
                      RequestFrame 1] /\
       exists s4,
         step noSeekHandler (Frame 1) s3 = Some s4 /\
         trace s4 = trace s3 ++ [LogInfo PAUSE; HandlerCall 2 PAUSE "c"] /\
         eventsQueue s4 = []) /\
  (exists s2,
     run noSeekHandler [Settle 1 (Failure "boom"); React 1]
       (call (processExclusively noSeekHandler PAUSE "x")
          createVideoEventSequencer) = Some s2 /\
     trace s2 =
       [CancelFrame None; LogInfo PAUSE; HandlerCall 1 PAUSE "x";
        HandlerSettled 1 (Failure "boom"); LogWarn PAUSE "boom";
        CallbackInvoked (ResolveOf 0); ResolveCalled 0; ResolveCalled 1]).
Proof.
  split.
  2:{ destruct (proj2 (proj2 (proj2 (proj2
                  (failures_are_swallowed noSeekHandler))))
                  createVideoEventSequencer PAUSE "x" "boom")
        as (s2 & Hr & Ht & _); [repeat split; repeat constructor|].
      exists s2. split; [exact Hr|]. rewrite Ht. reflexivity. }
  eexists. split; [vm_compute; reflexivity|].
  match goal with
  | |- exists s3, run _ _ (fst (processLoop _ ?s)) = _ /\ _ =>
      destruct (proj1 (proj2 (proj2 (failures_are_swallowed noSeekHandler)))
                  s (mkQueued SEEK "b") [mkQueued PAUSE "c"] "unused")
        as (s3 & Hr & Ht & _ & Hnext);
        [repeat split; repeat constructor|reflexivity|]
  end.
  exists s3. split; [exact Hr|]. split; [exact Ht|].
  destruct (Hnext (mkQueued PAUSE "c") [] eq_refl) as (s4 & Hs & Ht4 & Hq4).
  exists s4. split; [exact Hs|]. split; [exact Ht4|exact Hq4].
Defined.


(** C7, witness: Scenario D; after [destroy] an exclusive command runs to
    its end and still no frame is requested. *)
Lemma destroy_stops_until_next_enqueue_witness :
  exists s s',
    run fullHandler
      [Enqueue PLAY "a"; Enqueue PAUSE "b"; Enqueue SEEK "c";
       Settle 0 Success; React 0; Resume 0]
      createVideoEventSequencer = Some s /\
    scheduledFrames s = [0] /\
    run fullHandler
      [Exclusively NEXT "x"; Settle 2 Success; React 2; Resume 2]
      (call destroy s) = Some s' /\
    scheduledFrames (call destroy s) = [] /\
    eventsQueue (call destroy s) = [] /\
    frameRequests (trace s') = frameRequests (trace s) /\
    eventsQueue s' = [].
Proof.
  eexists. eexists. split; [vm_compute; reflexivity|].
  split; [reflexivity|]. split; [vm_compute; reflexivity|].
  split; [reflexivity|].
  match goal with
  | |- _ /\ frameRequests (trace ?s') = frameRequests (trace ?s) /\ _ =>
      destruct (destroy_stops_until_next_enqueue fullHandler s
                  [Exclusively NEXT "x"; Settle 2 Success; React 2; Resume 2] s')
        as (Hq & _ & _ & _ & Hf & Hq');
        [reflexivity|reflexivity|vm_compute; reflexivity|]
  end.
  split; [exact Hq|]. split; [exact Hf|exact Hq'].
Defined.

(** C7, counterexample: [destroy] is called while [play] is in flight; when
    the handler call settles the drain step resumes and requests a frame.
    And [enqueueForProcessing] after [destroy] starts a drain cycle and
    dispatches its command. *)
Lemma tick_scheduled_after_destroy :
  (exists s,
     run fullHandler
       [Enqueue PLAY "a"; Destroy; Settle 0 Success; React 0; Resume 0]
       createVideoEventSequencer = Some s /\
     trace s =
       [LogInfo PLAY; HandlerCall 0 PLAY "a"; CancelFrame None;
        HandlerSettled 0 Success; ResolveCalled 0; RequestFrame 0] /\
     scheduledFrames s = [0]) /\
  (exists s,
     run fullHandler [Destroy; Enqueue PLAY "a"] createVideoEventSequencer
     = Some s /\
     isProcessing s = true /\
     trace s = [CancelFrame None; LogInfo PLAY; HandlerCall 0 PLAY "a"]).
Proof.
  split; eexists; (split; [vm_compute; reflexivity|]); split; reflexivity.
Qed.



(** X11, witness: an executor chain for [play] whose callback throws. *)
Lemma throwing_callback_still_resolves_but_escapes_witness :
  exists s2,
    run fullHandler [Settle 0 (Failure "boom"); React 0]
      (fst (processNextEvent fullHandler PLAY "a"
              (Some (Raises "callback failed")) createVideoEventSequencer))
    = Some s2 /\
    isFulfilled 0 s2 = true /\
    escapes (trace s2) = [UnhandledRejection "callback failed"].
Proof.
  destruct (throwing_callback_still_resolves_but_escapes fullHandler
              (fst (processNextEvent fullHandler PLAY "a"
                      (Some (Raises "callback failed"))
                      createVideoEventSequencer))
              0 (mkChain 0 PLAY "a" (Some (Raises "callback failed")) InFlight)
              "callback failed" (Failure "boom"))
    as [_ (s2 & t & Hr & Ht & -> & _ & Hful & _)];
    [reflexivity|reflexivity|reflexivity|].
  exists s2. split; [exact Hr|]. split; [exact Hful|].
  rewrite Ht. reflexivity.
Defined.

(** The same chain when the handler call succeeds: [ensureResolve]
    completes with the callback's error; the [catch] handler receives it,
    logs a warning for a command that did not fail and calls the callback
    again; the second error is a rejection without a handler. *)
Lemma callback_error_is_not_discarded :
  snd (ensureResolve (resolvePromise 0) (Some (Raises "callback failed"))
         createVideoEventSequencer) = Throw "callback failed" /\
  exists s2,
    run fullHandler [Settle 0 Success; React 0; React 0]
      (fst (processNextEvent fullHandler PLAY "a"
              (Some (Raises "callback failed")) createVideoEventSequencer))
    = Some s2 /\
    trace s2 =
      [LogInfo PLAY; HandlerCall 0 PLAY "a"; HandlerSettled 0 Success;
       CallbackInvoked (Raises "callback failed"); ResolveCalled 0;
       LogWarn PLAY "callback failed";
       CallbackInvoked (Raises "callback failed"); ResolveCalled 0;
       UnhandledRejection "callback failed"] /\
    escapes (trace s2) = [UnhandledRejection "callback failed"].
Proof.
  split; [reflexivity|].
  eexists. split; [vm_compute; reflexivity|]. split; reflexivity.
Qed.

(** C10, witness: [pause] is executed exclusively from the initial state
    and [play] is enqueued before it settles. *)
Lemma exclusive_call_leaves_cycle_inactive_witness :
  isProcessing
    (call (processExclusively fullHandler PAUSE "x") createVideoEventSequencer)
  = false /\
  map c_event
    (inFlight
       (call (enqueueForProcessing fullHandler PLAY "a")
          (call (processExclusively fullHandler PAUSE "x")
             createVideoEventSequencer)))
  = [PAUSE; PLAY].
Proof.
  destruct (exclusive_call_leaves_cycle_inactive fullHandler
              createVideoEventSequencer PAUSE "x" PLAY "a")
    as (Hb & _ & _ & _ & _ & Hin); [reflexivity|reflexivity|].
  split; [exact Hb|]. rewrite Hin. reflexivity.
Defined.

(** X1, witness: two commands enqueued, the first one settled and its tick
    scheduled. *)
Lemma cycle_flag_tracks_activity_witness :
  exists s,
    run fullHandler
      [Enqueue PLAY "a"; Enqueue PAUSE "b"; Settle 0 Success; React 0; Resume 0]
      createVideoEventSequencer = Some s /\
    isProcessing s = true /\
    length (awaits s) + length (scheduledFrames s) = 1.
Proof.
  eexists. split; [vm_compute; reflexivity|]. split; [reflexivity|].
  match goal with
  | |- length (awaits ?s) + _ = 1 =>
      apply (cycle_flag_tracks_activity fullHandler
               [Enqueue PLAY "a"; Enqueue PAUSE "b"; Settle 0 Success;
                React 0; Resume 0] s);
        vm_compute; reflexivity
  end.
Defined.

(** X2, witness: the frame that finds two commands queued starts one. *)
Lemma one_handler_call_per_action_witness :
  exists s s' calls,
    run fullHandler
      [Enqueue PLAY "a"; Enqueue PAUSE "b"; Enqueue SEEK "c";
       Settle 0 Success; React 0; Resume 0]
      createVideoEventSequencer = Some s /\
    step fullHandler (Frame 0) s = Some s' /\
    eventsQueue s = [mkQueued PAUSE "b"; mkQueued SEEK "c"] /\
    handlerCalls (trace s') = handlerCalls (trace s) ++ calls /\
    length calls <= 1.
Proof.
  eexists. eexists.
  match goal with
  | |- exists calls, ?R /\ ?S /\ _ =>
      assert (Hr : R) by (vm_compute; reflexivity);
      assert (Hs : S) by (vm_compute; reflexivity)
  end.
  destruct (one_handler_call_per_action fullHandler _ _ _ Hs)
    as (calls & Hc & Hl & _).
  exists calls. split; [exact Hr|]. split; [exact Hs|].
  split; [reflexivity|]. split; [exact Hc|exact Hl].
Defined.

(** X3, witness: three commands enqueued at once on a new sequencer. *)
Lemma burst_on_idle_starts_first_only_witness :
  exists s',
    run fullHandler
      (enqueueAll [mkQueued PLAY "a"; mkQueued PAUSE "b"; mkQueued SEEK "c"])
      createVideoEventSequencer = Some s' /\
    trace s' = [LogInfo PLAY; HandlerCall 0 PLAY "a"] /\
    eventsQueue s' = [mkQueued PAUSE "b"; mkQueued SEEK "c"].
Proof.
  destruct (burst_on_idle_starts_first_only fullHandler
              createVideoEventSequencer (mkQueued PLAY "a")
              [mkQueued PAUSE "b"; mkQueued SEEK "c"])
    as (s' & Hr & Ht & Hq & _); [reflexivity|reflexivity|].
  exists s'. split; [exact Hr|]. split; [exact Ht|exact Hq].
Defined.

(** X4, witness: [destroy] while [play] is in flight. *)
Lemma preemption_keeps_suspended_drain_step_witness :
  exists s',
    run fullHandler [Destroy; Settle 0 (Failure "boom"); React 0; Resume 0]
      (call (enqueueForProcessing fullHandler PLAY "a")
         createVideoEventSequencer) = Some s' /\
    isProcessing s' = false /\
    currentAnimationFrame s' = Some 0 /\
    In 0 (scheduledFrames s').
Proof.
  destruct (preemption_keeps_suspended_drain_step fullHandler Destroy
              (call (enqueueForProcessing fullHandler PLAY "a")
                 createVideoEventSequencer)
              0 (mkChain 0 PLAY "a" None InFlight) (Failure "boom"))
    as (s' & Hr & Hb & _ & Hcur & Hin & _);
    [reflexivity|reflexivity|reflexivity|reflexivity|reflexivity|].
  exists s'. split; [exact Hr|]. split; [exact Hb|]. split; [exact Hcur|exact Hin].
Defined.

(** X5, witness: [destroy], an [enqueueForProcessing] and a second
    [processExclusively] are called while the exclusive [pause] is in
    flight. *)
Lemma exclusive_promise_survives_public_calls_witness :
  exists s1 s2,
    run fullHandler [Destroy; Enqueue PLAY "a"; Exclusively NEXT "n"]
      (call (processExclusively fullHandler PAUSE "x")
         createVideoEventSequencer) = Some s1 /\
    run fullHandler [Settle 1 Success; React 1] s1 = Some s2 /\
    isFulfilled 0 s2 = true.
Proof.
  destruct (exclusive_promise_survives_public_calls fullHandler
              (call (processExclusively fullHandler PAUSE "x")
                 createVideoEventSequencer)
              1 0 (mkChain 1 PAUSE "x" (Some (ResolveOf 0)) InFlight)
              [Destroy; Enqueue PLAY "a"; Exclusively NEXT "n"] Success)
    as (s1 & s2 & t & Hr1 & Hr2 & _ & _ & Hout & _);
    [reflexivity|reflexivity|reflexivity|reflexivity|].
  exists s1, s2. split; [exact Hr1|]. split; [exact Hr2|exact Hout].
Defined.

(** X6, witness: the handler lacks [seek]; [seek] is logged but not
    handed over. *)
Lemma every_started_command_is_logged_witness :
  exists s started_commands,
    run noSeekHandler
      [Enqueue SEEK "a"; Exclusively PLAY "b"; Enqueue PAUSE "c"]
      createVideoEventSequencer = Some s /\
    infoLog (trace s) = [SEEK; PLAY; PAUSE] /\
    infoLog (trace s) = map event started_commands /\
    handlerCalls (trace s) = filter (respondsTo noSeekHandler) started_commands.
Proof.
  eexists.
  match goal with
  | |- exists d, ?R /\ _ =>
      assert (Hr : R) by (vm_compute; reflexivity)
  end.
  destruct (every_started_command_is_logged noSeekHandler _ _ Hr)
    as (done & Hi & Hc).
  exists done. split; [exact Hr|]. split; [reflexivity|].
  split; [exact Hi|exact Hc].
Defined.

(** X7, witness: Scenario A run to the end. *)
Lemma no_warning_without_failure_witness :
  exists s,
    run fullHandler
      [Enqueue PLAY "a"; Enqueue PAUSE "b"; Settle 0 Success; React 0;
       Resume 0; Frame 0; Settle 1 Success; React 1; Resume 1; Frame 1]
      createVideoEventSequencer = Some s /\
    isProcessing s = false /\
    warnings (trace s) = [].
Proof.
  eexists. split; [vm_compute; reflexivity|]. split; [reflexivity|].
  match goal with
  | |- warnings (trace ?s) = [] =>
      apply (no_warning_without_failure fullHandler
               [Enqueue PLAY "a"; Enqueue PAUSE "b"; Settle 0 Success; React 0;
                Resume 0; Frame 0; Settle 1 Success; React 1; Resume 1; Frame 1]
               s);
        [intros ev; reflexivity|vm_compute; reflexivity|vm_compute; reflexivity]
  end.
Defined.

(** X8, witness: a backlog is preempted and more commands follow. *)
Lemma dispatch_follows_submission_order_witness :
  exists s,
    run fullHandler
      [Enqueue PLAY "a"; Enqueue PAUSE "b"; Exclusively NEXT "x";
       Enqueue SEEK "c"; Enqueue REWIND "d"; Settle 0 Success; React 0;
       Resume 0; Frame 0]
      createVideoEventSequencer = Some s /\
    handlerCalls (trace s) =
      [mkQueued PLAY "a"; mkQueued NEXT "x"; mkQueued SEEK "c";
       mkQueued REWIND "d"] /\
    Subseq (handlerCalls (trace s))
      [mkQueued PLAY "a"; mkQueued PAUSE "b"; mkQueued NEXT "x";
       mkQueued SEEK "c"; mkQueued REWIND "d"].
Proof.
  eexists.
  match goal with
  | |- ?R /\ _ => assert (Hr : R) by (vm_compute; reflexivity)
  end.
  split; [exact Hr|]. split; [reflexivity|].
  exact (dispatch_follows_submission_order fullHandler _ _ Hr).
Defined.

(** X9, witness. *)
Lemma operationName_injective_witness : SET_TRACK = SET_TRACK.
Proof. apply operationName_injective. reflexivity. Defined.

(** X10, witness: an exclusive [updateMediaState] on a new sequencer whose
    handler call fails. *)
Lemma exclusive_at_rest_leaves_nothing_behind_witness :
  exists s2,
    run fullHandler [Settle 1 (Failure "boom"); React 1; Resume 1]
      (call (processExclusively fullHandler UPDATE_MEDIA_STATE "m")
         createVideoEventSequencer) = Some s2 /\
    chains s2 = [] /\
    awaits s2 = [] /\
    fulfilled s2 = [0; 1].
Proof.
  destruct (exclusive_at_rest_leaves_nothing_behind fullHandler
              createVideoEventSequencer UPDATE_MEDIA_STATE "m" (Failure "boom"))
    as (s2 & Hr & Hc & Ha & _ & _ & Hf & _);
    [reflexivity|reflexivity|constructor|].
  exists s2. split; [exact Hr|]. split; [exact Hc|]. split; [exact Ha|exact Hf].
Defined.
